(** * Shallow embedding of @uistate/router (src/unnamed/part_000)

    JavaScript strings are modelled as lists of Unicode scalar values
    ([list Z]); [js] turns an ASCII Rocq string literal into one. *)

From Stdlib Require Import ZArith List Bool String Ascii Lia.
Import ListNotations.
Open Scope Z_scope.

(** ** Strings *)

Definition jstr := list Z.

Definition js (s : string) : jstr :=
  map (fun a => Z.of_nat (nat_of_ascii a)) (list_ascii_of_string s).

Definition ch (s : string) : Z :=
  match s with String a _ => Z.of_nat (nat_of_ascii a) | EmptyString => 0 end.

Definition SLASH : Z := 47.
Definition COLON : Z := 58.
Definition PERCENT : Z := 37.
Definition QMARK : Z := 63.
Definition BSLASH : Z := 92.

Fixpoint jstr_eqb (a b : jstr) : bool :=
  match a, b with
  | [], [] => true
  | x :: a', y :: b' => (x =? y) && jstr_eqb a' b'
  | _, _ => false
  end.

(** [s.startsWith(pre)] *)
Fixpoint startsWith (s pre : jstr) : bool :=
  match pre, s with
  | [], _ => true
  | p :: pre', c :: s' => (p =? c) && startsWith s' pre'
  | _ :: _, [] => false
  end.

(** [s.endsWith(suf)] for a one-character suffix *)
Definition endsWithChar (s : jstr) (c : Z) : bool :=
  match rev s with d :: _ => d =? c | [] => false end.

(** [s.slice(0, -1)] *)
Definition dropLast (s : jstr) : jstr := removelast s.

(** ** normalizePath (lines 88-94)

    The argument is [None] for [null]/[undefined]. *)

Definition INDEX_HTML : jstr := js "/index.html".

Definition normalizePath (p : option jstr) : jstr :=
  match p with
  | None | Some [] => [SLASH]                                  (* if (!p) return '/' *)
  | Some (c :: rest) =>
      let p1 := if c =? SLASH then c :: rest else SLASH :: c :: rest in
      if jstr_eqb p1 INDEX_HTML then [SLASH]
      else if (1 <? Z.of_nat (List.length p1)) && endsWithChar p1 SLASH
           then dropLast p1 else p1
  end.

(** ** compilePattern (lines 8-21) *)

Definition isIdentStart (c : Z) : bool :=
  ((65 <=? c) && (c <=? 90)) || ((97 <=? c) && (c <=? 122)) || (c =? 95).

Definition isIdentChar (c : Z) : bool :=
  isIdentStart c || ((48 <=? c) && (c <=? 57)).

Definition startsIdent (s : jstr) : bool :=
  match s with c :: _ => isIdentStart c | [] => false end.

(** [pattern.split(TOKEN)] where TOKEN is a colon, an ASCII letter or underscore,
    then letters, digits or underscores: the leftmost token is
    found at each step, its identifier taken greedily, and the captured
    identifier is spliced into the result between the literal pieces.
    [inName] is true while the identifier of a token is being read. *)
Fixpoint split_go (s : jstr) (inName : bool) (cur : jstr) {struct s} : list jstr :=
  match s with
  | [] => if inName then [rev cur; []] else [rev cur]
  | c :: rest =>
      if inName && isIdentChar c then split_go rest true (c :: cur)
      else
        let pre := if inName then [rev cur] else [] in
        let acc := if inName then [] else cur in
        if (c =? COLON) && startsIdent rest
        then pre ++ rev acc :: split_go rest true []
        else pre ++ split_go rest false (c :: acc)
  end.

Definition splitParams (pattern : jstr) : list jstr := split_go pattern false [].

(** the character class [/[.*+?^${}()|[\]\\]/] *)
Definition RE_META : jstr := js ".*+?^${}()|[]\".

Definition isReMeta (c : Z) : bool := existsb (Z.eqb c) RE_META.

(** [part.replace(/[.*+?^${}()|[\]\\]/g, '\\$&')] *)
Definition escapeRe (part : jstr) : jstr :=
  flat_map (fun c => if isReMeta c then [BSLASH; c] else [c]) part.

Definition GROUP_SRC : jstr := js "([^/]+)".

Record CompiledPattern := { regexSrc : jstr; paramNames : list jstr }.

(** [parts.map((part, i) => ...)] with [paramNames.push] at odd indices,
    then [.join('')]: returns the joined source and the pushed names. *)
Fixpoint compile_parts (i : nat) (parts : list jstr) : jstr * list jstr :=
  match parts with
  | [] => ([], [])
  | part :: ps =>
      let '(src, names) := compile_parts (S i) ps in
      if Nat.odd i then (GROUP_SRC ++ src, part :: names)
      else (escapeRe part ++ src, names)
  end.

Definition compilePattern (pattern : jstr) : CompiledPattern :=
  let '(src, names) := compile_parts 0 (splitParams pattern) in
  {| regexSrc := [ch "^"] ++ src ++ [ch "$"]; paramNames := names |}.

(** ** The RegExp subset produced by compilePattern

    [new RegExp(src)] for the pattern syntax compilePattern emits: identity
    escapes of syntax characters, the group [([^/]+)], the assertions [^]
    and [$], and plain characters.  Any other syntax is outside the subset
    and yields [None]. *)

Inductive ReNode := RChar (c : Z) | RGroup | RBegin | REnd.

Fixpoint parseRe (fuel : nat) (s : jstr) : option (list ReNode) :=
  match fuel with
  | O => None
  | S f =>
      match s with
      | [] => Some []
      | c :: rest =>
          if c =? BSLASH then
            match rest with
            | d :: rest' => if isReMeta d then option_map (cons (RChar d)) (parseRe f rest')
                            else None
            | [] => None
            end
          else if c =? ch "(" then
            if jstr_eqb (firstn 6 rest) (js "[^/]+)")
            then option_map (cons RGroup) (parseRe f (skipn 6 rest)) else None
          else if c =? ch "^" then option_map (cons RBegin) (parseRe f rest)
          else if c =? ch "$" then option_map (cons REnd) (parseRe f rest)
          else if isReMeta c then None
          else option_map (cons (RChar c)) (parseRe f rest)
      end
  end.

Definition parseRegExp (src : jstr) : option (list ReNode) := parseRe (S (List.length src)) src.

Fixpoint nonslash_len (s : jstr) : nat :=
  match s with
  | c :: s' => if c =? SLASH then O else S (nonslash_len s')
  | [] => O
  end.

(** [[^/]+] is greedy: try the longest run first and give back one
    character at a time; [cont k] matches the rest after [k] characters. *)
Fixpoint try_len (cont : nat -> option (list jstr)) (s : jstr) (k : nat) : option (list jstr) :=
  match k with
  | O => None
  | S k' =>
      match cont k with
      | Some caps => Some (firstn k s :: caps)
      | None => try_len cont s k'
      end
  end.

(** Backtracking matcher at position [pos] of the subject ([s] is the
    rest of the subject).  Returns the captures in group order. *)
Fixpoint mt (ns : list ReNode) (pos : nat) (s : jstr) {struct ns} : option (list jstr) :=
  match ns with
  | [] => Some []
  | RChar c :: ns' =>
      match s with
      | d :: s' => if c =? d then mt ns' (S pos) s' else None
      | [] => None
      end
  | RBegin :: ns' => if Nat.eqb pos 0 then mt ns' pos s else None
  | REnd :: ns' => match s with [] => mt ns' pos s | _ :: _ => None end
  | RGroup :: ns' => try_len (fun k => mt ns' (pos + k)%nat (skipn k s)) s (nonslash_len s)
  end.

(** [RegExp.prototype.exec] (non-global): first start position that matches *)
Fixpoint exec_from (ns : list ReNode) (pos : nat) (s : jstr) : option (list jstr) :=
  match mt ns pos s with
  | Some caps => Some caps
  | None => match s with [] => None | _ :: s' => exec_from ns (S pos) s' end
  end.

Definition exec (ns : list ReNode) (s : jstr) : option (list jstr) := exec_from ns 0 s.

(** ** decodeURIComponent (ECMA-262 Decode with an empty reserved set)

    A character automaton; [None] is a thrown URIError. *)

Definition hexVal (c : Z) : option Z :=
  if (48 <=? c) && (c <=? 57) then Some (c - 48)
  else if (65 <=? c) && (c <=? 70) then Some (c - 55)
  else if (97 <=? c) && (c <=? 102) then Some (c - 87)
  else None.

(** a multi-byte sequence being read: code point so far, continuation
    bytes still expected, smallest code point this length may encode *)
Record DSeq := { sq_cp : Z; sq_left : nat; sq_min : Z }.

Inductive DState :=
| DNormal
| DPct1 (ctx : option DSeq)
| DPct2 (ctx : option DSeq) (h1 : Z)
| DNeedPct (sq : DSeq).

Definition validScalar (cp mn : Z) : bool :=
  (mn <=? cp) && (cp <=? 1114111) && negb ((55296 <=? cp) && (cp <=? 57343)).

Fixpoint dec (s : jstr) (st : DState) : option jstr :=
  match s with
  | [] => match st with DNormal => Some [] | _ => None end
  | c :: rest =>
      match st with
      | DNormal =>
          if c =? PERCENT then dec rest (DPct1 None)
          else option_map (cons c) (dec rest DNormal)
      | DPct1 ctx =>
          match hexVal c with Some h => dec rest (DPct2 ctx h) | None => None end
      | DPct2 ctx h1 =>
          match hexVal c with
          | None => None
          | Some h2 =>
              let b := h1 * 16 + h2 in
              match ctx with
              | None =>
                  if b <? 128 then option_map (cons b) (dec rest DNormal)
                  else if (192 <=? b) && (b <? 224) then
                    dec rest (DNeedPct {| sq_cp := b - 192; sq_left := 1; sq_min := 128 |})
                  else if (224 <=? b) && (b <? 240) then
                    dec rest (DNeedPct {| sq_cp := b - 224; sq_left := 2; sq_min := 2048 |})
                  else if (240 <=? b) && (b <? 248) then
                    dec rest (DNeedPct {| sq_cp := b - 240; sq_left := 3; sq_min := 65536 |})
                  else None
              | Some sq =>
                  if (128 <=? b) && (b <? 192) then
                    let cp := sq_cp sq * 64 + (b - 128) in
                    match sq_left sq with
                    | S O => if validScalar cp (sq_min sq)
                             then option_map (cons cp) (dec rest DNormal) else None
                    | S n => dec rest (DNeedPct {| sq_cp := cp; sq_left := n; sq_min := sq_min sq |})
                    | O => None
                    end
                  else None
              end
          end
      | DNeedPct sq => if c =? PERCENT then dec rest (DPct1 (Some sq)) else None
      end
  end.

Definition decodeURIComponent (s : jstr) : option jstr := dec s DNormal.

(** ** Plain JS objects used as maps ([params], [query])

    Own string-keyed properties in insertion order.  Assigning a string
    to the key "__proto__" runs the inherited accessor, which ignores
    non-object values. *)

Definition jsobj := list (jstr * jstr).

Definition PROTO : jstr := js "__proto__".

Fixpoint obj_update (o : jsobj) (k v : jstr) : option jsobj :=
  match o with
  | [] => None
  | (k', v') :: o' =>
      if jstr_eqb k k' then Some ((k', v) :: o')
      else option_map (cons (k', v')) (obj_update o' k v)
  end.

Definition obj_set (o : jsobj) (k v : jstr) : jsobj :=
  if jstr_eqb k PROTO then o
  else match obj_update o k v with Some o' => o' | None => o ++ [(k, v)] end.

Fixpoint obj_get (o : jsobj) (k : jstr) : option jstr :=
  match o with
  | [] => None
  | (k', v) :: o' => if jstr_eqb k k' then Some v else obj_get o' k
  end.

(** ** resolve (lines 96-110) *)

Inductive JsError := URIError | TypeError | RootNotFound.

Inductive Exc (A : Type) := Ok (a : A) | Throw (e : JsError).
Arguments Ok {A} a.
Arguments Throw {A} e.

(** A route definition [{ path, view, component }]; [r_boot] is [Some b]
    when the component is present and has a [boot] function (named [b]). *)
Record Route := { r_path : jstr; r_view : jstr; r_boot : option nat }.

Record Cfg := {
  routes : list Route;
  fallback : option Route;
  basePath : jstr;        (* BASE_PATH, computed from <base href> *)
  hasStore : bool
}.

Record Resolved := { res_view : jstr; res_boot : option nat; res_params : jsobj }.

Definition regexOf (r : Route) : list ReNode :=
  match parseRegExp (regexSrc (compilePattern (r_path r))) with
  | Some ns => ns
  | None => []
  end.

(** [route.paramNames.forEach((name, i) => params[name] = decodeURIComponent(match[i + 1]))] *)
Fixpoint assign_params (o : jsobj) (names caps : list jstr) : Exc jsobj :=
  match names with
  | [] => Ok o
  | n :: ns =>
      let c := match caps with c :: _ => c | [] => js "undefined" end in
      match decodeURIComponent c with
      | Some d => assign_params (obj_set o n d) ns (tl caps)
      | None => Throw URIError
      end
  end.

Fixpoint resolve_in (rs : list Route) (fb : option Route) (p : jstr) : Exc (option Resolved) :=
  match rs with
  | [] =>
      match fb with
      | Some f => Ok (Some {| res_view := r_view f; res_boot := r_boot f; res_params := [] |})
      | None => Ok None
      end
  | r :: rs' =>
      match exec (regexOf r) p with
      | Some caps =>
          match assign_params [] (paramNames (compilePattern (r_path r))) caps with
          | Ok params => Ok (Some {| res_view := r_view r; res_boot := r_boot r; res_params := params |})
          | Throw e => Throw e
          end
      | None => resolve_in rs' fb p
      end
  end.

Definition resolve (cfg : Cfg) (pathname : jstr) : Exc (option Resolved) :=
  resolve_in (routes cfg) (fallback cfg) (normalizePath (Some pathname)).

(** ** URL helpers: base path (lines 74-86), UTF-8, URLSearchParams *)

Definition stripBase (base pathname : jstr) : jstr :=
  if negb (jstr_eqb base []) && startsWith pathname base then
    let rest := match skipn (List.length base) pathname with [] => [SLASH] | r => r end in
    if startsWith rest [SLASH] then rest else SLASH :: rest
  else pathname.

Definition withBase (base pathname : jstr) : jstr :=
  if jstr_eqb base [] then pathname
  else if jstr_eqb pathname [SLASH] then base
  else base ++ (if startsWith pathname [SLASH] then [] else [SLASH]) ++ pathname.

Definition utf8_encode_cp (cp : Z) : list Z :=
  if cp <? 128 then [cp]
  else if cp <? 2048 then [192 + cp / 64; 128 + cp mod 64]
  else if cp <? 65536 then [224 + cp / 4096; 128 + (cp / 64) mod 64; 128 + cp mod 64]
  else [240 + cp / 262144; 128 + (cp / 4096) mod 64; 128 + (cp / 64) mod 64; 128 + cp mod 64].

Definition utf8_encode (s : jstr) : list Z := flat_map utf8_encode_cp s.

(** WHATWG "UTF-8 decode without BOM" (errors become U+FFFD) *)
Record U8 := { u_cp : Z; u_need : nat; u_lo : Z; u_hi : Z }.

Definition FFFD : Z := 65533.

Definition u8_start (b : Z) : list Z * option U8 :=
  if b <? 128 then ([b], None)
  else if (194 <=? b) && (b <=? 223) then
    ([], Some {| u_cp := b - 192; u_need := 1; u_lo := 128; u_hi := 191 |})
  else if (224 <=? b) && (b <=? 239) then
    ([], Some {| u_cp := b - 224; u_need := 2;
                 u_lo := if b =? 224 then 160 else 128;
                 u_hi := if b =? 237 then 159 else 191 |})
  else if (240 <=? b) && (b <=? 244) then
    ([], Some {| u_cp := b - 240; u_need := 3;
                 u_lo := if b =? 240 then 144 else 128;
                 u_hi := if b =? 244 then 143 else 191 |})
  else ([FFFD], None).

Fixpoint u8dec (bs : list Z) (st : option U8) : jstr :=
  match bs with
  | [] => match st with None => [] | Some _ => [FFFD] end
  | b :: bs' =>
      match st with
      | None => let '(e, st') := u8_start b in e ++ u8dec bs' st'
      | Some u =>
          if (u_lo u <=? b) && (b <=? u_hi u) then
            let cp := u_cp u * 64 + (b - 128) in
            match u_need u with
            | S (S n) => u8dec bs' (Some {| u_cp := cp; u_need := S n; u_lo := 128; u_hi := 191 |})
            | _ => cp :: u8dec bs' None
            end
          else FFFD :: (let '(e, st') := u8_start b in e ++ u8dec bs' st')
      end
  end.

(** URL "percent-decode" of a byte sequence (malformed escapes kept) *)
Fixpoint pct_decode (bs : list Z) : list Z :=
  match bs with
  | [] => []
  | b :: rest =>
      if b =? PERCENT then
        match rest with
        | h1 :: h2 :: rest' =>
            match hexVal h1, hexVal h2 with
            | Some a, Some c => (a * 16 + c) :: pct_decode rest'
            | _, _ => b :: pct_decode rest
            end
        | _ => b :: pct_decode rest
        end
      else b :: pct_decode rest
  end.

Fixpoint split_on (sep : Z) (s : list Z) : list (list Z) :=
  match s with
  | [] => [[]]
  | c :: s' =>
      if c =? sep then [] :: split_on sep s'
      else match split_on sep s' with
           | x :: xs => (c :: x) :: xs
           | [] => [[c]]
           end
  end.

Fixpoint break_at (sep : Z) (s : list Z) : list Z * option (list Z) :=
  match s with
  | [] => ([], None)
  | c :: s' =>
      if c =? sep then ([], Some s')
      else let '(a, b) := break_at sep s' in (c :: a, b)
  end.

Definition AMP : Z := 38.
Definition EQ : Z := 61.
Definition PLUS : Z := 43.
Definition SPACE : Z := 32.

Definition plus_to_space (bs : list Z) : list Z :=
  map (fun b => if b =? PLUS then SPACE else b) bs.

(** the list of name-value pairs kept by a URLSearchParams object *)
Definition usp := list (jstr * jstr).

(** application/x-www-form-urlencoded parser *)
Definition usp_parse (s : jstr) : usp :=
  flat_map (fun seq =>
      match seq with
      | [] => []
      | _ =>
          let '(n, v) := break_at EQ seq in
          let v := match v with Some v => v | None => [] end in
          [(u8dec (pct_decode (plus_to_space n)) None, u8dec (pct_decode (plus_to_space v)) None)]
      end)
    (split_on AMP (utf8_encode s)).

Definition hexDigitU (n : Z) : Z := if n <? 10 then 48 + n else 55 + n.

Definition form_byte (b : Z) : list Z :=
  if b =? SPACE then [PLUS]
  else if (b =? 42) || (b =? 45) || (b =? 46) || ((48 <=? b) && (b <=? 57))
          || ((65 <=? b) && (b <=? 90)) || (b =? 95) || ((97 <=? b) && (b <=? 122))
  then [b]
  else [PERCENT; hexDigitU (b / 16); hexDigitU (b mod 16)].

Definition form_encode (s : jstr) : jstr := flat_map form_byte (utf8_encode s).

(** application/x-www-form-urlencoded serializer ([params.toString()]) *)
Fixpoint usp_serialize (l : usp) : jstr :=
  match l with
  | [] => []
  | [(n, v)] => form_encode n ++ EQ :: form_encode v
  | (n, v) :: l' => form_encode n ++ EQ :: form_encode v ++ AMP :: usp_serialize l'
  end.

Definition usp_delete (l : usp) (k : jstr) : usp :=
  filter (fun '(k', _) => negb (jstr_eqb k k')) l.

Fixpoint usp_set_go (l : usp) (k v : jstr) (found : bool) : usp :=
  match l with
  | [] => []
  | (k', v') :: l' =>
      if jstr_eqb k k' then
        if found then usp_set_go l' k v true else (k', v) :: usp_set_go l' k v true
      else (k', v') :: usp_set_go l' k v found
  end.

Definition usp_set (l : usp) (k v : jstr) : usp :=
  if existsb (fun '(k', _) => jstr_eqb k k') l then usp_set_go l k v false
  else l ++ [(k, v)].

(** The query of [new URL(location.origin + rel)]: tabs and newlines are
    removed, trailing spaces and C0 controls are stripped, and the query
    runs from the first [?] to the first [#]. *)
Definition isTabNl (c : Z) : bool := (c =? 9) || (c =? 10) || (c =? 13).

Fixpoint dropWhileC0 (s : jstr) : jstr :=
  match s with c :: s' => if c <=? 32 then dropWhileC0 s' else s | [] => [] end.

Definition url_query (rel : jstr) : jstr :=
  let s := rev (dropWhileC0 (rev (filter (fun c => negb (isTabNl c)) rel))) in
  let '(beforeHash, _) := break_at (ch "#") s in
  match break_at QMARK beforeHash with
  | (_, Some q) => q
  | (_, None) => []
  end.

(** [fullUrl.searchParams.forEach((v, k) => { query[k] = v; })] *)
Definition query_object (rel : jstr) : jsobj :=
  fold_left (fun o '(k, v) => obj_set o k v) (usp_parse (url_query rel)) [].

(** ** Router state (lines 136-140) *)

(** [current]; [unboot] is [Some u] when it holds a function named [u] *)
Record Cur := { viewKey : option jstr; unboot : option nat; cpath : option jstr; csearch : jstr }.

(** the ui.route.* keys of the store *)
Record StoreR := {
  s_view : option jstr; s_path : option jstr; s_params : option jsobj;
  s_query : option jsobj; s_transitioning : option bool }.

(** an element of [navSelector]: the pathname of its href, its [active]
    class and whether it carries [aria-current] *)
Record NavLink := { nl_pathname : jstr; nl_active : bool; nl_aria : bool }.

Inductive HistOp := HPush (url : jstr) | HReplace (url : jstr).

(** The world a router instance lives in: its own closure variables
    ([current], [navController], [scrollPositions]), the store keys it
    writes, the DOM pieces it touches and the browser history.  An abort
    controller is named by a number; [aborted] lists the aborted ones. *)
Record World := {
  current : Cur;
  navController : option nat;
  aborted : list nat;
  nextCtl : nat;
  scrollPositions : list (jstr * (Z * Z));
  store : StoreR;
  storeFails : bool;
  rootPresent : bool;
  rootTabindex : option jstr;
  rootFocused : bool;
  rootClears : nat;
  htmlTransitioning : option jstr;
  htmlView : option jstr;
  scrollXY : Z * Z;
  navLinks : list NavLink;
  locPath : jstr;
  locSearch : jstr;
  hist : list HistOp;
  bootCalls : list (nat * nat);
  unbootCalls : list nat;
  listening : bool;
  goSubscribed : bool
}.

Definition set_current (x : Cur) (w : World) : World :=
  {| current := x; navController := navController w; aborted := aborted w;
     nextCtl := nextCtl w; scrollPositions := scrollPositions w; store := store w;
     storeFails := storeFails w; rootPresent := rootPresent w;
     rootTabindex := rootTabindex w; rootFocused := rootFocused w;
     rootClears := rootClears w; htmlTransitioning := htmlTransitioning w;
     htmlView := htmlView w; scrollXY := scrollXY w; navLinks := navLinks w;
     locPath := locPath w; locSearch := locSearch w; hist := hist w;
     bootCalls := bootCalls w; unbootCalls := unbootCalls w; listening := listening w;
     goSubscribed := goSubscribed w |}.

Definition set_navController (x : option nat) (w : World) : World :=
  {| current := current w; navController := x; aborted := aborted w;
     nextCtl := nextCtl w; scrollPositions := scrollPositions w; store := store w;
     storeFails := storeFails w; rootPresent := rootPresent w;
     rootTabindex := rootTabindex w; rootFocused := rootFocused w;
     rootClears := rootClears w; htmlTransitioning := htmlTransitioning w;
     htmlView := htmlView w; scrollXY := scrollXY w; navLinks := navLinks w;
     locPath := locPath w; locSearch := locSearch w; hist := hist w;
     bootCalls := bootCalls w; unbootCalls := unbootCalls w; listening := listening w;
     goSubscribed := goSubscribed w |}.

Definition set_aborted (x : list nat) (w : World) : World :=
  {| current := current w; navController := navController w; aborted := x;
     nextCtl := nextCtl w; scrollPositions := scrollPositions w; store := store w;
     storeFails := storeFails w; rootPresent := rootPresent w;
     rootTabindex := rootTabindex w; rootFocused := rootFocused w;
     rootClears := rootClears w; htmlTransitioning := htmlTransitioning w;
     htmlView := htmlView w; scrollXY := scrollXY w; navLinks := navLinks w;
     locPath := locPath w; locSearch := locSearch w; hist := hist w;
     bootCalls := bootCalls w; unbootCalls := unbootCalls w; listening := listening w;
     goSubscribed := goSubscribed w |}.

Definition set_nextCtl (x : nat) (w : World) : World :=
  {| current := current w; navController := navController w; aborted := aborted w;
     nextCtl := x; scrollPositions := scrollPositions w; store := store w;
     storeFails := storeFails w; rootPresent := rootPresent w;
     rootTabindex := rootTabindex w; rootFocused := rootFocused w;
     rootClears := rootClears w; htmlTransitioning := htmlTransitioning w;
     htmlView := htmlView w; scrollXY := scrollXY w; navLinks := navLinks w;
     locPath := locPath w; locSearch := locSearch w; hist := hist w;
     bootCalls := bootCalls w; unbootCalls := unbootCalls w; listening := listening w;
     goSubscribed := goSubscribed w |}.

Definition set_scrollPositions (x : list (jstr * (Z * Z))) (w : World) : World :=
  {| current := current w; navController := navController w; aborted := aborted w;
     nextCtl := nextCtl w; scrollPositions := x; store := store w;
     storeFails := storeFails w; rootPresent := rootPresent w;
     rootTabindex := rootTabindex w; rootFocused := rootFocused w;
     rootClears := rootClears w; htmlTransitioning := htmlTransitioning w;
     htmlView := htmlView w; scrollXY := scrollXY w; navLinks := navLinks w;
     locPath := locPath w; locSearch := locSearch w; hist := hist w;
     bootCalls := bootCalls w; unbootCalls := unbootCalls w; listening := listening w;
     goSubscribed := goSubscribed w |}.

Definition set_store (x : StoreR) (w : World) : World :=
  {| current := current w; navController := navController w; aborted := aborted w;
     nextCtl := nextCtl w; scrollPositions := scrollPositions w; store := x;
     storeFails := storeFails w; rootPresent := rootPresent w;
     rootTabindex := rootTabindex w; rootFocused := rootFocused w;
     rootClears := rootClears w; htmlTransitioning := htmlTransitioning w;
     htmlView := htmlView w; scrollXY := scrollXY w; navLinks := navLinks w;
     locPath := locPath w; locSearch := locSearch w; hist := hist w;
     bootCalls := bootCalls w; unbootCalls := unbootCalls w; listening := listening w;
     goSubscribed := goSubscribed w |}.

Definition set_storeFails (x : bool) (w : World) : World :=
  {| current := current w; navController := navController w; aborted := aborted w;
     nextCtl := nextCtl w; scrollPositions := scrollPositions w; store := store w;
     storeFails := x; rootPresent := rootPresent w; rootTabindex := rootTabindex w;
     rootFocused := rootFocused w; rootClears := rootClears w;
     htmlTransitioning := htmlTransitioning w; htmlView := htmlView w;
     scrollXY := scrollXY w; navLinks := navLinks w; locPath := locPath w;
     locSearch := locSearch w; hist := hist w; bootCalls := bootCalls w;
     unbootCalls := unbootCalls w; listening := listening w;
     goSubscribed := goSubscribed w |}.

Definition set_rootPresent (x : bool) (w : World) : World :=
  {| current := current w; navController := navController w; aborted := aborted w;
     nextCtl := nextCtl w; scrollPositions := scrollPositions w; store := store w;
     storeFails := storeFails w; rootPresent := x; rootTabindex := rootTabindex w;
     rootFocused := rootFocused w; rootClears := rootClears w;
     htmlTransitioning := htmlTransitioning w; htmlView := htmlView w;
     scrollXY := scrollXY w; navLinks := navLinks w; locPath := locPath w;
     locSearch := locSearch w; hist := hist w; bootCalls := bootCalls w;
     unbootCalls := unbootCalls w; listening := listening w;
     goSubscribed := goSubscribed w |}.

Definition set_rootTabindex (x : option jstr) (w : World) : World :=
  {| current := current w; navController := navController w; aborted := aborted w;
     nextCtl := nextCtl w; scrollPositions := scrollPositions w; store := store w;
     storeFails := storeFails w; rootPresent := rootPresent w; rootTabindex := x;
     rootFocused := rootFocused w; rootClears := rootClears w;
     htmlTransitioning := htmlTransitioning w; htmlView := htmlView w;
     scrollXY := scrollXY w; navLinks := navLinks w; locPath := locPath w;
     locSearch := locSearch w; hist := hist w; bootCalls := bootCalls w;
     unbootCalls := unbootCalls w; listening := listening w;
     goSubscribed := goSubscribed w |}.

Definition set_rootFocused (x : bool) (w : World) : World :=
  {| current := current w; navController := navController w; aborted := aborted w;
     nextCtl := nextCtl w; scrollPositions := scrollPositions w; store := store w;
     storeFails := storeFails w; rootPresent := rootPresent w;
     rootTabindex := rootTabindex w; rootFocused := x; rootClears := rootClears w;
     htmlTransitioning := htmlTransitioning w; htmlView := htmlView w;
     scrollXY := scrollXY w; navLinks := navLinks w; locPath := locPath w;
     locSearch := locSearch w; hist := hist w; bootCalls := bootCalls w;
     unbootCalls := unbootCalls w; listening := listening w;
     goSubscribed := goSubscribed w |}.

Definition set_rootClears (x : nat) (w : World) : World :=
  {| current := current w; navController := navController w; aborted := aborted w;
     nextCtl := nextCtl w; scrollPositions := scrollPositions w; store := store w;
     storeFails := storeFails w; rootPresent := rootPresent w;
     rootTabindex := rootTabindex w; rootFocused := rootFocused w; rootClears := x;
     htmlTransitioning := htmlTransitioning w; htmlView := htmlView w;
     scrollXY := scrollXY w; navLinks := navLinks w; locPath := locPath w;
     locSearch := locSearch w; hist := hist w; bootCalls := bootCalls w;
     unbootCalls := unbootCalls w; listening := listening w;
     goSubscribed := goSubscribed w |}.

Definition set_htmlTransitioning (x : option jstr) (w : World) : World :=
  {| current := current w; navController := navController w; aborted := aborted w;
     nextCtl := nextCtl w; scrollPositions := scrollPositions w; store := store w;
     storeFails := storeFails w; rootPresent := rootPresent w;
     rootTabindex := rootTabindex w; rootFocused := rootFocused w;
     rootClears := rootClears w; htmlTransitioning := x; htmlView := htmlView w;
     scrollXY := scrollXY w; navLinks := navLinks w; locPath := locPath w;
     locSearch := locSearch w; hist := hist w; bootCalls := bootCalls w;
     unbootCalls := unbootCalls w; listening := listening w;
     goSubscribed := goSubscribed w |}.

Definition set_htmlView (x : option jstr) (w : World) : World :=
  {| current := current w; navController := navController w; aborted := aborted w;
     nextCtl := nextCtl w; scrollPositions := scrollPositions w; store := store w;
     storeFails := storeFails w; rootPresent := rootPresent w;
     rootTabindex := rootTabindex w; rootFocused := rootFocused w;
     rootClears := rootClears w; htmlTransitioning := htmlTransitioning w;
     htmlView := x; scrollXY := scrollXY w; navLinks := navLinks w;
     locPath := locPath w; locSearch := locSearch w; hist := hist w;
     bootCalls := bootCalls w; unbootCalls := unbootCalls w; listening := listening w;
     goSubscribed := goSubscribed w |}.

Definition set_scrollXY (x : Z * Z) (w : World) : World :=
  {| current := current w; navController := navController w; aborted := aborted w;
     nextCtl := nextCtl w; scrollPositions := scrollPositions w; store := store w;
     storeFails := storeFails w; rootPresent := rootPresent w;
     rootTabindex := rootTabindex w; rootFocused := rootFocused w;
     rootClears := rootClears w; htmlTransitioning := htmlTransitioning w;
     htmlView := htmlView w; scrollXY := x; navLinks := navLinks w;
     locPath := locPath w; locSearch := locSearch w; hist := hist w;
     bootCalls := bootCalls w; unbootCalls := unbootCalls w; listening := listening w;
     goSubscribed := goSubscribed w |}.

Definition set_navLinks (x : list NavLink) (w : World) : World :=
  {| current := current w; navController := navController w; aborted := aborted w;
     nextCtl := nextCtl w; scrollPositions := scrollPositions w; store := store w;
     storeFails := storeFails w; rootPresent := rootPresent w;
     rootTabindex := rootTabindex w; rootFocused := rootFocused w;
     rootClears := rootClears w; htmlTransitioning := htmlTransitioning w;
     htmlView := htmlView w; scrollXY := scrollXY w; navLinks := x;
     locPath := locPath w; locSearch := locSearch w; hist := hist w;
     bootCalls := bootCalls w; unbootCalls := unbootCalls w; listening := listening w;
     goSubscribed := goSubscribed w |}.

Definition set_locPath (x : jstr) (w : World) : World :=
  {| current := current w; navController := navController w; aborted := aborted w;
     nextCtl := nextCtl w; scrollPositions := scrollPositions w; store := store w;
     storeFails := storeFails w; rootPresent := rootPresent w;
     rootTabindex := rootTabindex w; rootFocused := rootFocused w;
     rootClears := rootClears w; htmlTransitioning := htmlTransitioning w;
     htmlView := htmlView w; scrollXY := scrollXY w; navLinks := navLinks w;
     locPath := x; locSearch := locSearch w; hist := hist w; bootCalls := bootCalls w;
     unbootCalls := unbootCalls w; listening := listening w;
     goSubscribed := goSubscribed w |}.

Definition set_locSearch (x : jstr) (w : World) : World :=
  {| current := current w; navController := navController w; aborted := aborted w;
     nextCtl := nextCtl w; scrollPositions := scrollPositions w; store := store w;
     storeFails := storeFails w; rootPresent := rootPresent w;
     rootTabindex := rootTabindex w; rootFocused := rootFocused w;
     rootClears := rootClears w; htmlTransitioning := htmlTransitioning w;
     htmlView := htmlView w; scrollXY := scrollXY w; navLinks := navLinks w;
     locPath := locPath w; locSearch := x; hist := hist w; bootCalls := bootCalls w;
     unbootCalls := unbootCalls w; listening := listening w;
     goSubscribed := goSubscribed w |}.

Definition set_hist (x : list HistOp) (w : World) : World :=
  {| current := current w; navController := navController w; aborted := aborted w;
     nextCtl := nextCtl w; scrollPositions := scrollPositions w; store := store w;
     storeFails := storeFails w; rootPresent := rootPresent w;
     rootTabindex := rootTabindex w; rootFocused := rootFocused w;
     rootClears := rootClears w; htmlTransitioning := htmlTransitioning w;
     htmlView := htmlView w; scrollXY := scrollXY w; navLinks := navLinks w;
     locPath := locPath w; locSearch := locSearch w; hist := x;
     bootCalls := bootCalls w; unbootCalls := unbootCalls w; listening := listening w;
     goSubscribed := goSubscribed w |}.

Definition set_bootCalls (x : list (nat * nat)) (w : World) : World :=
  {| current := current w; navController := navController w; aborted := aborted w;
     nextCtl := nextCtl w; scrollPositions := scrollPositions w; store := store w;
     storeFails := storeFails w; rootPresent := rootPresent w;
     rootTabindex := rootTabindex w; rootFocused := rootFocused w;
     rootClears := rootClears w; htmlTransitioning := htmlTransitioning w;
     htmlView := htmlView w; scrollXY := scrollXY w; navLinks := navLinks w;
     locPath := locPath w; locSearch := locSearch w; hist := hist w; bootCalls := x;
     unbootCalls := unbootCalls w; listening := listening w;
     goSubscribed := goSubscribed w |}.

Definition set_unbootCalls (x : list nat) (w : World) : World :=
  {| current := current w; navController := navController w; aborted := aborted w;
     nextCtl := nextCtl w; scrollPositions := scrollPositions w; store := store w;
     storeFails := storeFails w; rootPresent := rootPresent w;
     rootTabindex := rootTabindex w; rootFocused := rootFocused w;
     rootClears := rootClears w; htmlTransitioning := htmlTransitioning w;
     htmlView := htmlView w; scrollXY := scrollXY w; navLinks := navLinks w;
     locPath := locPath w; locSearch := locSearch w; hist := hist w;
     bootCalls := bootCalls w; unbootCalls := x; listening := listening w;
     goSubscribed := goSubscribed w |}.

Definition set_listening (x : bool) (w : World) : World :=
  {| current := current w; navController := navController w; aborted := aborted w;
     nextCtl := nextCtl w; scrollPositions := scrollPositions w; store := store w;
     storeFails := storeFails w; rootPresent := rootPresent w;
     rootTabindex := rootTabindex w; rootFocused := rootFocused w;
     rootClears := rootClears w; htmlTransitioning := htmlTransitioning w;
     htmlView := htmlView w; scrollXY := scrollXY w; navLinks := navLinks w;
     locPath := locPath w; locSearch := locSearch w; hist := hist w;
     bootCalls := bootCalls w; unbootCalls := unbootCalls w; listening := x;
     goSubscribed := goSubscribed w |}.

Definition set_goSubscribed (x : bool) (w : World) : World :=
  {| current := current w; navController := navController w; aborted := aborted w;
     nextCtl := nextCtl w; scrollPositions := scrollPositions w; store := store w;
     storeFails := storeFails w; rootPresent := rootPresent w;
     rootTabindex := rootTabindex w; rootFocused := rootFocused w;
     rootClears := rootClears w; htmlTransitioning := htmlTransitioning w;
     htmlView := htmlView w; scrollXY := scrollXY w; navLinks := navLinks w;
     locPath := locPath w; locSearch := locSearch w; hist := hist w;
     bootCalls := bootCalls w; unbootCalls := unbootCalls w; listening := listening w;
     goSubscribed := x |}.
(** ** navigate (lines 150-252)

    [navigate] is an async function with two [await]s (the previous
    view's unboot and the new view's boot).  It is cut at those points:
    [nav_begin] runs up to the first [await] reached, [after_unboot] and
    [after_boot] run from one [await] to the next.  A suspended call is a
    [Pending] frame holding the locals still in use.  What collaborators do
    is an input: whether unboot or boot throws before returning a promise
    ([UnbootCall], [BootCall]), and how the awaited boot settles
    ([BootResult]). *)

Record Frame := {
  f_sig : nat;            (* the AbortController created for this call *)
  f_appPath : jstr;
  f_search : jstr;        (* searchStr *)
  f_view : jstr;
  f_boot : option nat;
  f_params : jsobj;
  f_replace : bool;
  f_restore : bool }.

Inductive Pending := AtUnboot (fr : Frame) | AtBoot (fr : Frame).

Inductive Out :=
| ODone (w : World)                 (* the returned promise fulfils *)
| OFail (w : World)                 (* the returned promise rejects *)
| OWait (w : World) (p : Pending).  (* suspended at an await *)

Inductive UnbootCall := UThrowsSync | UReturns.
Inductive BootCall := BThrowsSync | BReturns.
Inductive BootResult := BResolved (unboot : option nat) | BRejected.

Definition opt_jstr_eqb (a : option jstr) (b : jstr) : bool :=
  match a with Some a => jstr_eqb a b | None => false end.

(** [search && search.startsWith('?') ? search : (search ? ('?' + search) : '')] *)
Definition mkSearch (search : jstr) : jstr :=
  match search with
  | [] => []
  | c :: _ => if c =? QMARK then search else QMARK :: search
  end.

(** [try { store.set(..) } catch {}]: a failing store changes nothing *)
Definition store_write (cfg : Cfg) (f : StoreR -> StoreR) (w : World) : World :=
  if hasStore cfg && negb (storeFails w) then set_store (f (store w)) w else w.

Definition with_transitioning (b : bool) (s : StoreR) : StoreR :=
  {| s_view := s_view s; s_path := s_path s; s_params := s_params s;
     s_query := s_query s; s_transitioning := Some b |}.

(** [scrollPositions.set(k, v)] on a Map: an existing key keeps its place *)
Fixpoint ledger_put (l : list (jstr * (Z * Z))) (k : jstr) (v : Z * Z) : list (jstr * (Z * Z)) :=
  match l with
  | [] => [(k, v)]
  | (k', v') :: l' => if jstr_eqb k k' then (k', v) :: l' else (k', v') :: ledger_put l' k v
  end.

(** [set], then [if (size > 50) delete(keys().next().value)] *)
Definition ledger_record (l : list (jstr * (Z * Z))) (k : jstr) (v : Z * Z) : list (jstr * (Z * Z)) :=
  let l' := ledger_put l k v in
  if (50 <? List.length l')%nat then tl l' else l'.

Fixpoint ledger_get (l : list (jstr * (Z * Z))) (k : jstr) : option (Z * Z) :=
  match l with
  | [] => None
  | (k', v) :: l' => if jstr_eqb k k' then Some v else ledger_get l' k
  end.

(** setActiveNav (lines 122-134), for one link *)
Definition nav_link_update (base here0 : jstr) (a : NavLink) : NavLink :=
  let linkPath := normalizePath (Some (stripBase base (nl_pathname a))) in
  let here := normalizePath (Some here0) in
  let isExact := jstr_eqb linkPath here in
  let isParent := negb isExact && negb (jstr_eqb linkPath [SLASH]) && startsWith here linkPath in
  {| nl_pathname := nl_pathname a; nl_active := isExact || isParent; nl_aria := isExact |}.

Definition aborted_b (w : World) (sig : nat) : bool := existsb (Nat.eqb sig) (aborted w).

(** lines 203-251: the supersession guard and the commit *)
Definition after_boot (cfg : Cfg) (w : World) (fr : Frame) (r : BootResult) : Out :=
  match r with
  | BRejected => OFail w
  | BResolved ub =>
      if aborted_b w (f_sig fr) then ODone w else
      let appPath := f_appPath fr in
      let searchStr := f_search fr in
      let w1 := set_current {| viewKey := Some (f_view fr); unboot := ub;
                               cpath := Some appPath; csearch := searchStr |} w in
      let url := withBase (basePath cfg) appPath ++ searchStr in
      let query := query_object url in
      let w2 := store_write cfg (fun _ =>
                  {| s_view := Some (f_view fr); s_path := Some appPath;
                     s_params := Some (f_params fr); s_query := Some query;
                     s_transitioning := Some false |}) w1 in
      let w3 := set_hist ((if f_replace fr then HReplace url else HPush url) :: hist w2) w2 in
      let w4 := set_locSearch searchStr (set_locPath (withBase (basePath cfg) appPath) w3) in
      let w5 := set_htmlTransitioning (Some (js "off")) (set_htmlView (Some (f_view fr)) w4) in
      let w6 := set_navLinks (map (nav_link_update (basePath cfg) appPath) (navLinks w5)) w5 in
      let w7 := match rootTabindex w6 with
                | None => set_rootTabindex (Some (js "-1")) w6
                | Some _ => w6
                end in
      let w8 := set_rootFocused true w7 in
      let w9 := if f_restore fr then
                  match ledger_get (scrollPositions w8) appPath with
                  | Some pos => set_scrollXY pos w8
                  | None => w8
                  end
                else set_scrollXY (0, 0) w8 in
      ODone w9
  end.

(** lines 194-201: clear the root, call boot *)
Definition after_unboot (cfg : Cfg) (w : World) (fr : Frame) (bb : BootCall) : Out :=
  let w1 := set_rootClears (S (rootClears w)) w in
  match f_boot fr with
  | Some b =>
      let w2 := set_bootCalls ((b, f_sig fr) :: bootCalls w1) w1 in
      match bb with
      | BThrowsSync => OFail w2
      | BReturns => OWait w2 (AtBoot fr)
      end
  | None => after_boot cfg w1 fr (BResolved None)
  end.

(** lines 151-192 *)
Definition nav_begin (cfg : Cfg) (w : World) (pathname search : jstr) (replace restoreScroll : bool)
    (uc : UnbootCall) (bc : BootCall) : Out :=
  if negb (rootPresent w) then OFail w else                     (* getRoot() throws *)
  let appPath := normalizePath (Some (stripBase (basePath cfg) pathname)) in
  match resolve cfg appPath with
  | Throw _ => OFail w
  | Ok None => ODone w
  | Ok (Some res) =>
      let searchStr := mkSearch search in
      if opt_jstr_eqb (cpath (current w)) appPath && jstr_eqb (csearch (current w)) searchStr
      then ODone w else
      let sig := nextCtl w in
      let w1 := set_nextCtl (S sig) (set_navController (Some sig)
                  (match navController w with
                   | Some old => set_aborted (old :: aborted w) w
                   | None => w
                   end)) in
      let w2 := store_write cfg (with_transitioning true)
                  (set_htmlTransitioning (Some (js "on")) w1) in
      let w3 := match cpath (current w2) with
                | Some ((_ :: _) as p) =>
                    set_scrollPositions (ledger_record (scrollPositions w2) p (scrollXY w2)) w2
                | _ => w2
                end in
      let fr := {| f_sig := sig; f_appPath := appPath; f_search := searchStr;
                   f_view := res_view res; f_boot := res_boot res; f_params := res_params res;
                   f_replace := replace; f_restore := restoreScroll |} in
      match unboot (current w3) with
      | Some u =>
          let w4 := set_unbootCalls (u :: unbootCalls w3) w3 in
          match uc with
          | UThrowsSync => after_unboot cfg w4 fr bc
          | UReturns => OWait w4 (AtUnboot fr)
          end
      | None => after_unboot cfg w3 fr bc
      end
  end.

(** resuming a suspended call when its awaited promise settles *)
Definition resume (cfg : Cfg) (w : World) (p : Pending) (bc : BootCall) (r : BootResult) : Out :=
  match p with
  | AtUnboot fr => after_unboot cfg w fr bc
  | AtBoot fr => after_boot cfg w fr r
  end.

(** ** navigateQuery (lines 258-268) *)

Inductive PVal := PNull | PUndefined | PStr (s : jstr) | POther (coerced : jstr).

(** [String(v)] for the values that reach [params.set] *)
Definition pval_string (v : PVal) : jstr :=
  match v with PStr s => s | POther s => s | _ => [] end.

Definition pval_removes (v : PVal) : bool :=
  match v with PNull | PUndefined => true | PStr [] => true | _ => false end.

Definition apply_patch (l : usp) (kv : jstr * PVal) : usp :=
  let '(k, v) := kv in
  if pval_removes v then usp_delete l k else usp_set l k (pval_string v).

(** [current.search?.replace(/^\?/, '') || ''] *)
Definition strip_q (s : jstr) : jstr :=
  match s with c :: s' => if c =? QMARK then s' else s | [] => [] end.

Definition merged_query (w : World) (patch : list (jstr * PVal)) : usp :=
  fold_left apply_patch patch (usp_parse (strip_q (csearch (current w)))).

(** the arguments navigateQuery passes to navigate: path, search, replace *)
Definition navigateQuery_args (cfg : Cfg) (w : World) (patch : list (jstr * PVal))
    (replace : option bool) : jstr * jstr * bool :=
  let s := usp_serialize (merged_query w patch) in
  let prefixed := match s with [] => [] | _ => QMARK :: s end in
  let path := match cpath (current w) with
              | Some ((_ :: _) as p) => p
              | _ => normalizePath (Some (stripBase (basePath cfg) (locPath w)))
              end in
  (path, prefixed, match replace with Some b => b | None => true end).

Definition navigateQuery (cfg : Cfg) (w : World) (patch : list (jstr * PVal)) (replace : option bool)
    (uc : UnbootCall) (bc : BootCall) : Out :=
  let '(path, search, rep) := navigateQuery_args cfg w patch replace in
  nav_begin cfg w path search rep false uc bc.

(** ** stop and getCurrent (lines 347-363) *)

Definition stop (w : World) : World :=
  let w1 := set_goSubscribed false (set_listening false w) in
  match unboot (current w1) with
  | Some u => set_unbootCalls (u :: unbootCalls w1) w1
  | None => w1
  end.

Definition getCurrent (w : World) : option jstr * option jstr * jstr :=
  (viewKey (current w), cpath (current w), csearch (current w)).

(** ** Interleaving of navigations

    Every caller (start, link clicks, popstate, ui.route.go, navigateQuery,
    navigatePath) reaches the router through [navigate]; a configuration is
    the world with the calls still suspended.  In one step a new call of
    [navigate] runs up to its first await, a suspended call is resumed (in
    any order: the awaited promises belong to collaborators), [stop] runs,
    or the environment acts (the user scrolls, the root element appears or
    disappears, the store starts or stops throwing, the nav links change). *)

Inductive EnvEvent :=
| EScroll (xy : Z * Z)
| ERoot (present : bool)
| EStoreFails (fails : bool)
| ELinks (links : list NavLink).

Definition env_apply (e : EnvEvent) (w : World) : World :=
  match e with
  | EScroll xy => set_scrollXY xy w
  | ERoot b => set_rootPresent b w
  | EStoreFails b => set_storeFails b w
  | ELinks l => set_navLinks l w
  end.

Definition Conf := (World * list Pending)%type.

Definition out_world (o : Out) : World :=
  match o with ODone w => w | OFail w => w | OWait w _ => w end.

Definition out_conf (o : Out) (ps : list Pending) : Conf :=
  match o with
  | ODone w => (w, ps)
  | OFail w => (w, ps)
  | OWait w p => (w, p :: ps)
  end.

Inductive step (cfg : Cfg) : Conf -> Conf -> Prop :=
| StepNavigate : forall w ps pathname search rep rs uc bc,
    step cfg (w, ps) (out_conf (nav_begin cfg w pathname search rep rs uc bc) ps)
| StepResume : forall w ps1 p ps2 bc r,
    step cfg (w, ps1 ++ p :: ps2) (out_conf (resume cfg w p bc r) (ps1 ++ ps2))
| StepStop : forall w ps, step cfg (w, ps) (stop w, ps)
| StepEnv : forall w ps e, step cfg (w, ps) (env_apply e w, ps).

Inductive steps (cfg : Cfg) : Conf -> Conf -> Prop :=
| steps_refl : forall c, steps cfg c c
| steps_step : forall c1 c2 c3, steps cfg c1 c2 -> step cfg c2 c3 -> steps cfg c1 c3.

Definition cur0 : Cur := {| viewKey := None; unboot := None; cpath := None; csearch := [] |}.

(** a freshly created router: [current] as on line 137, no controller,
    an empty Map; the page around it is arbitrary *)
Definition initial (w : World) : Prop :=
  current w = cur0 /\ navController w = None /\ aborted w = [] /\ scrollPositions w = [].

Definition reachable (cfg : Cfg) (c : Conf) : Prop :=
  exists w0, initial w0 /\ steps cfg (w0, []) c.

Definition frame_of (p : Pending) : Frame :=
  match p with AtUnboot fr => fr | AtBoot fr => fr end.

(** what a navigation commits: NavigationState, history, store keys *)
Definition committed (w : World) : Cur * list HistOp * StoreR := (current w, hist w, store w).

(** ** A concrete router used by the examples

    The routes of the spec's scenario; [post] and [user] have views with
    a [boot] function (named 1 and 2); the fallback is the 404 view. *)

Definition demo_routes : list Route :=
  [ {| r_path := js "/"; r_view := js "home"; r_boot := None |};
    {| r_path := js "/users"; r_view := js "users"; r_boot := None |};
    {| r_path := js "/users/:id"; r_view := js "user"; r_boot := Some 2%nat |};
    {| r_path := js "/users/:id/posts/:postId"; r_view := js "post"; r_boot := Some 1%nat |};
    {| r_path := js "/search"; r_view := js "search"; r_boot := None |} ].

Definition demo_cfg : Cfg :=
  {| routes := demo_routes;
     fallback := Some {| r_path := js "/*"; r_view := js "404"; r_boot := None |};
     basePath := []; hasStore := true |}.



Definition store0 : StoreR :=
  {| s_view := None; s_path := None; s_params := None; s_query := None; s_transitioning := None |}.

Definition world0 : World :=
  {| current := cur0; navController := None; aborted := []; nextCtl := 0;
     scrollPositions := []; store := store0; storeFails := false;
     rootPresent := true; rootTabindex := None; rootFocused := false; rootClears := 0;
     htmlTransitioning := None; htmlView := None; scrollXY := (0, 0);
     navLinks := [{| nl_pathname := js "/users"; nl_active := false; nl_aria := false |}];
     locPath := js "/"; locSearch := []; hist := [];
     bootCalls := []; unbootCalls := []; listening := true; goSubscribed := true |}.

(** ** Auxiliary definitions for the proofs *)

Definition lead_slash (p : option jstr) : jstr :=
  match p with
  | None | Some [] => [SLASH]
  | Some (c :: rest) => if c =? SLASH then c :: rest else SLASH :: c :: rest
  end.

Definition norm_q (q : jstr) : jstr :=
  if jstr_eqb q INDEX_HTML then [SLASH]
  else if (1 <? Z.of_nat (List.length q)) && endsWithChar q SLASH then dropLast q else q.

Definition ends2slash (q : jstr) : bool :=
  match rev q with a :: b :: _ => (a =? SLASH) && (b =? SLASH) | _ => false end.

(** worlds reached in the examples *)
Definition demo_w1 : World :=
  out_world (nav_begin demo_cfg world0 (js "/") [] false false UReturns BReturns).

Definition demo_o2 : Out :=
  nav_begin demo_cfg demo_w1 (js "/users/7") [] false false UReturns BReturns.

(** The template read as the spec describes it: a parameter token is a
    colon followed by an identifier start; its name is the longest run of
    identifier characters after the colon. *)
Fixpoint take_ident (s : jstr) : jstr :=
  match s with c :: s' => if isIdentChar c then c :: take_ident s' else [] | [] => [] end.

Fixpoint spec_names (t : jstr) : list jstr :=
  match t with
  | [] => []
  | c :: rest =>
      if (c =? COLON) && startsIdent rest then take_ident rest :: spec_names rest
      else spec_names rest
  end.

(** each token becomes a group, every other character stands for itself
    ([inName]: inside the name of a token) *)
Fixpoint spec_nodes_go (t : jstr) (inName : bool) : list ReNode :=
  match t with
  | [] => []
  | c :: rest =>
      if inName && isIdentChar c then spec_nodes_go rest true
      else if (c =? COLON) && startsIdent rest then RGroup :: spec_nodes_go rest true
      else RChar c :: spec_nodes_go rest false
  end.

Definition spec_nodes (t : jstr) : list ReNode := spec_nodes_go t false.

Definition count_groups (ns : list ReNode) : nat :=
  List.length (filter (fun n => match n with RGroup => true | _ => false end) ns).

(** regex source text of a node, as compilePattern writes it *)
Definition render_node (n : ReNode) : jstr :=
  match n with
  | RChar c => if isReMeta c then [BSLASH; c] else [c]
  | RGroup => GROUP_SRC
  | RBegin => [ch "^"]
  | REnd => [ch "$"]
  end.

Definition render (ns : list ReNode) : jstr := flat_map render_node ns.

(** whole-string membership: characters match themselves, a group takes a
    non-empty run of non-slash characters and records it *)
Inductive full_match : list ReNode -> jstr -> list jstr -> Prop :=
| fm_nil : full_match [] [] []
| fm_char : forall c ns s caps,
    full_match ns s caps -> full_match (RChar c :: ns) (c :: s) caps
| fm_group : forall ns seg s caps,
    seg <> [] -> Forall (fun c => c <> SLASH) seg ->
    full_match ns s caps -> full_match (RGroup :: ns) (seg ++ s) (seg :: caps).

(** regex nodes compilePattern emits between the anchors *)
Definition simple_node (n : ReNode) : Prop :=
  match n with RChar _ | RGroup => True | _ => False end.

(** the scroll ledger invariant, and an in-place [set] of an existing key *)
Definition ledger_ok (l : list (jstr * (Z * Z))) : Prop :=
  (List.length l <= 50)%nat /\ NoDup (map fst l).

Definition ledger_upd (k : jstr) (v : Z * Z) (e : jstr * (Z * Z)) : jstr * (Z * Z) :=
  if jstr_eqb k (fst e) then (fst e, v) else e.

(** is a path one of the ledger's keys ([Map.prototype.has]) *)
Definition in_keys_dec (k : jstr) (l : list jstr) : {In k l} + {~ In k l} :=
  in_dec (list_eq_dec Z.eq_dec) k l.

(** invariant of the interleavings: the controller is the last one created;
    every suspended navigation holds the current controller or an aborted
    one; the committed path and every suspended target path resolve *)
Definition nav_inv (cfg : Cfg) (c : Conf) : Prop :=
  (forall s, navController (fst c) = Some s -> nextCtl (fst c) = S s) /\
  (forall p, cpath (current (fst c)) = Some p -> exists res, resolve cfg p = Ok (Some res)) /\
  Forall (fun pd =>
      (navController (fst c) = Some (f_sig (frame_of pd)) \/ In (f_sig (frame_of pd)) (aborted (fst c))) /\
      exists res, resolve cfg (f_appPath (frame_of pd)) = Ok (Some res)) (snd c).

(** from [demo_w1]: navigate('/users/7') suspends at the boot of the user
    view; then navigate('/users') starts, aborts it and commits *)
Definition demo_c2 : Conf := out_conf demo_o2 [].

Definition demo_c3 : Conf :=
  out_conf (nav_begin demo_cfg (fst demo_c2) (js "/users") [] false false UReturns BReturns)
           (snd demo_c2).

(** [URLSearchParams.prototype.getAll] *)
Definition usp_getAll (l : usp) (k : jstr) : list jstr :=
  map snd (filter (fun '(k', _) => jstr_eqb k k') l).




(** the spec's scenario: at "/search", navigateQuery({tab:'posts'}), then
    navigateQuery({tab:null}) *)
Definition search_w1 : World :=
  out_world (nav_begin demo_cfg world0 (js "/search") [] false false UReturns BReturns).

Definition search_w2 : World :=
  out_world (navigateQuery demo_cfg search_w1 [(js "tab", PStr (js "posts"))] None UReturns BReturns).

Definition search_w3 : World :=
  out_world (navigateQuery demo_cfg search_w2 [(js "tab", PNull)] None UReturns BReturns).

(** ** navigatePath, onPop, start and store-driven navigation (lines 270-345) *)

(** [navigatePath(path, { replace = true })] *)
Definition navigatePath (cfg : Cfg) (w : World) (path : jstr) (replace : option bool)
    (uc : UnbootCall) (bc : BootCall) : Out :=
  let appPath := normalizePath (Some (stripBase (basePath cfg) path)) in
  let searchStr := csearch (current w) in
  nav_begin cfg w appPath searchStr (match replace with Some b => b | None => true end) false uc bc.

(** [onPop]: [navigate(location.pathname, { replace: true, search: location.search, restoreScroll: true })] *)
Definition onPop (cfg : Cfg) (w : World) (uc : UnbootCall) (bc : BootCall) : Out :=
  nav_begin cfg w (locPath w) (locSearch w) true true uc bc.

(** [start()]: add the click and popstate listeners, then navigate as [onPop] does *)
Definition start (cfg : Cfg) (w : World) (uc : UnbootCall) (bc : BootCall) : Out :=
  let w1 := set_listening true w in
  nav_begin cfg w1 (locPath w1) (locSearch w1) true true uc bc.

(** a value written to [ui.route.go]: a falsy value, a string, an object
    [{ path, search, query, replace }] (absent fields are [None]), or any
    other truthy value *)
Inductive GoValue :=
| GoFalsy
| GoString (s : jstr)
| GoObject (path search : option jstr) (query : option (list (jstr * PVal))) (replace : option bool)
| GoOther.

Definition truthy_str (o : option jstr) : bool :=
  match o with Some (_ :: _) => true | _ => false end.

(** the body of the [ui.route.go] subscriber after its re-entrancy guard *)
Definition go_dispatch (cfg : Cfg) (w : World) (v : GoValue) (uc : UnbootCall) (bc : BootCall) : Out :=
  match v with
  | GoFalsy | GoOther | GoString [] => ODone w
  | GoString s => nav_begin cfg w s [] false false uc bc
  | GoObject path search query rep =>
      match truthy_str path, query with
      | false, Some q =>
          navigateQuery cfg w q (Some (match rep with Some b => b | None => true end)) uc bc
      | _, _ =>
          nav_begin cfg w (match path with Some ((_ :: _) as p) => p | _ => [SLASH] end)
            (match search with Some s => s | None => [] end)
            (match rep with Some true => true | _ => false end) false uc bc
      end
  end.

(** [store.set('ui.route.go', v)]: the subscriber runs only while subscribed *)
Definition store_set_go (cfg : Cfg) (w : World) (v : GoValue) (uc : UnbootCall) (bc : BootCall) : Out :=
  if goSubscribed w then go_dispatch cfg w v uc bc else ODone w.

(** a Unicode scalar value, what a URLSearchParams string holds *)
Definition scalar (c : Z) : bool := (0 <=? c) && (c <? 1114112) && negb ((55296 <=? c) && (c <=? 57343)).

Definition count_slash (s : jstr) : nat := List.length (filter (fun c => c =? SLASH) s).

(** the path [scrollPositions.delete(keys().next().value)] removes when
    [k] is recorded in [l], if any *)
Definition ledger_evicted (l : list (jstr * (Z * Z))) (k : jstr) : option jstr :=
  match l with
  | (k0, _) :: _ =>
      if in_keys_dec k (map fst l) then None
      else if (List.length l <? 50)%nat then None else Some k0
  | [] => None
  end.



(** every search string the router holds or carries is a [searchStr]
    of line 163: empty or starting with '?' *)
Definition search_inv (c : World * list Pending) : Prop :=
  mkSearch (csearch (current (fst c))) = csearch (current (fst c)) /\
  Forall (fun pd => mkSearch (f_search (frame_of pd)) = f_search (frame_of pd)) (snd c).

(** percent-encoding every UTF-8 byte of a string with upper-case hex
    digits (what [encodeURIComponent] does to the bytes it escapes) *)
Definition pct_byte (b : Z) : jstr := [PERCENT; hexDigitU (b / 16); hexDigitU (b mod 16)].

Definition pct_encode (s : jstr) : jstr := flat_map pct_byte (utf8_encode s).

(** the literal '/' nodes of a regex *)
Definition slash_nodes (ns : list ReNode) : nat :=
  List.length (filter (fun n => match n with RChar c => c =? SLASH | _ => false end) ns).

(** a page whose mounted view (the one at "/") returned an unboot function *)
Definition unboot_w0 : World :=
  set_current {| viewKey := Some (js "home"); unboot := Some 7%nat; cpath := Some (js "/");
                 csearch := [] |} world0.


(** helpers for the URLSearchParams round trip and the listener state *)

Definition form_safe (b : Z) : bool :=
  (b =? 42) || (b =? 45) || (b =? 46) || ((48 <=? b) && (b <=? 57))
  || ((65 <=? b) && (b <=? 90)) || (b =? 95) || ((97 <=? b) && (b <=? 122)).

Definition usp_chunk (p : jstr * jstr) : jstr := form_encode (fst p) ++ EQ :: form_encode (snd p).

Definition usp_scalar (l : usp) : Prop := Forall (fun p => Forall (fun c => scalar c = true) (fst p ++ snd p)) l.

Definition subs (w : World) : bool * bool := (goSubscribed w, listening w).
(** * Lemmas *)


Lemma jstr_eqb_eq : forall a b, jstr_eqb a b = true <-> a = b.
Proof.
  induction a as [|x a IH]; destruct b as [|y b]; simpl; split; intro H;
    try discriminate; try reflexivity.
  - apply andb_true_iff in H as [H1 H2]. apply Z.eqb_eq in H1.
    apply IH in H2. subst. reflexivity.
  - injection H as -> ->. apply andb_true_iff. split.
    + apply Z.eqb_refl.
    + apply IH. reflexivity.
Qed.

Lemma jstr_eqb_refl : forall a, jstr_eqb a a = true.
Proof. intro a. apply jstr_eqb_eq. reflexivity. Qed.


(** ** normalizePath *)

Lemma normalizePath_lead : forall p, normalizePath p = norm_q (lead_slash p).
Proof.
  intros [[|c rest]|]; reflexivity.
Qed.

Lemma lead_slash_fix : forall r : jstr, (exists r', r = SLASH :: r') -> lead_slash (Some r) = r.
Proof. intros r [r' ->]. reflexivity. Qed.

Lemma endsWithChar_snoc : forall q a c, endsWithChar (q ++ [a]) c = (a =? c).
Proof. intros. unfold endsWithChar. rewrite rev_app_distr. reflexivity. Qed.

Lemma ends2slash_snoc2 : forall q a b, ends2slash (q ++ [b] ++ [a]) = (a =? SLASH) && (b =? SLASH).
Proof.
  intros. unfold ends2slash. rewrite app_assoc, rev_app_distr, rev_app_distr. reflexivity.
Qed.

Lemma lead_slash_shape : forall p, exists r, lead_slash p = SLASH :: r.
Proof.
  intros [[|c rest]|]; simpl; eauto.
  destruct (c =? SLASH) eqn:E; eauto. apply Z.eqb_eq in E. subst. eauto.
Qed.

Lemma norm_q_shape : forall r, exists r', norm_q (SLASH :: r) = SLASH :: r'.
Proof.
  intro r. unfold norm_q.
  destruct (jstr_eqb (SLASH :: r) INDEX_HTML); [eauto|].
  destruct ((1 <? Z.of_nat (List.length (SLASH :: r))) && endsWithChar (SLASH :: r) SLASH)
    eqn:E; [|eauto].
  destruct r as [|x r]; [simpl in E; discriminate|].
  destruct (exists_last (l := x :: r) ltac:(discriminate)) as [r0 [a Ha]].
  unfold dropLast. change (SLASH :: x :: r) with ([SLASH] ++ x :: r).
  rewrite Ha, app_assoc, removelast_last. simpl. eauto.
Qed.

Lemma norm_q_index : norm_q INDEX_HTML = [SLASH].
Proof. reflexivity. Qed.

Lemma norm_q_keep : forall q, jstr_eqb q INDEX_HTML = false ->
  (1 <? Z.of_nat (List.length q)) && endsWithChar q SLASH = false -> norm_q q = q.
Proof. intros q H1 H2. unfold norm_q. rewrite H1, H2. reflexivity. Qed.

Lemma norm_q_strip : forall q0 a, jstr_eqb (q0 ++ [a]) INDEX_HTML = false ->
  (1 <? Z.of_nat (List.length (q0 ++ [a]))) && endsWithChar (q0 ++ [a]) SLASH = true ->
  norm_q (q0 ++ [a]) = q0.
Proof.
  intros q0 a H1 H2. unfold norm_q. rewrite H1, H2. unfold dropLast. apply removelast_last.
Qed.

Lemma norm_q_idem_iff : forall r,
  norm_q (norm_q (SLASH :: r)) = norm_q (SLASH :: r) <->
  ~ (SLASH :: r = js "/index.html/" \/
     ((2 < List.length (SLASH :: r))%nat /\ ends2slash (SLASH :: r) = true)).
Proof.
  intro r.
  destruct (jstr_eqb (SLASH :: r) INDEX_HTML) eqn:EI.
  { apply jstr_eqb_eq in EI. rewrite EI, norm_q_index. split; [|reflexivity].
    intros _ [H|[_ H]]; [discriminate H|discriminate H]. }
  destruct ((1 <? Z.of_nat (List.length (SLASH :: r))) && endsWithChar (SLASH :: r) SLASH)
    eqn:EC.
  2:{ rewrite (norm_q_keep _ EI EC), (norm_q_keep _ EI EC). split; [|reflexivity].
      intros _ [H|[Hl H]].
      - rewrite H in EC. discriminate EC.
      - destruct (exists_last (l := SLASH :: r) ltac:(discriminate)) as [q0 [a Ha]].
        rewrite Ha in Hl, H, EC. rewrite endsWithChar_snoc in EC.
        destruct (exists_last (l := q0) ltac:(intro; subst; simpl in Hl; lia)) as [q1 [b Hb]].
        rewrite Hb in H. rewrite <- app_assoc in H. rewrite ends2slash_snoc2 in H.
        apply andb_true_iff in H as [H _]. rewrite H in EC.
        rewrite length_app in Hl. simpl in Hl.
        apply andb_false_iff in EC as [EC|EC]; [|discriminate EC].
        apply Z.ltb_ge in EC. rewrite length_app in EC. simpl in EC. lia. }
  destruct (exists_last (l := SLASH :: r) ltac:(discriminate)) as [q0 [a Ha]].
  rewrite Ha in EI, EC |- *. rewrite (norm_q_strip _ _ EI EC).
  pose proof EC as EC'. apply andb_true_iff in EC' as [Hlen Ha'].
  rewrite endsWithChar_snoc in Ha'. apply Z.eqb_eq in Ha'. subst a.
  apply Z.ltb_lt in Hlen. rewrite length_app in Hlen. simpl in Hlen.
  destruct (jstr_eqb q0 INDEX_HTML) eqn:EI0.
  { apply jstr_eqb_eq in EI0. subst q0. rewrite norm_q_index. split.
    - intro H. vm_compute in H. discriminate H.
    - intro H. exfalso. apply H. left. reflexivity. }
  destruct ((1 <? Z.of_nat (List.length q0)) && endsWithChar q0 SLASH) eqn:EC0.
  - destruct (exists_last (l := q0) ltac:(intro; subst; simpl in Hlen; lia)) as [q1 [b Hb]].
    rewrite Hb in EI0, EC0 |- *. rewrite (norm_q_strip _ _ EI0 EC0). split.
    + intro H. exfalso. assert (Hl := f_equal (@List.length Z) H).
      rewrite length_app in Hl. simpl in Hl. lia.
    + intro H. exfalso. apply H. right. rewrite <- app_assoc, ends2slash_snoc2.
      apply andb_true_iff in EC0 as [Hl0 Hb0]. rewrite endsWithChar_snoc in Hb0.
      rewrite Hb0. split; [|reflexivity].
      apply Z.ltb_lt in Hl0. repeat rewrite length_app in *. simpl in *. lia.
  - rewrite (norm_q_keep _ EI0 EC0). split; [|reflexivity].
    intros _ [H|[Hl H]].
    + assert (q0 = INDEX_HTML).
      { apply (app_inj_tail q0 INDEX_HTML SLASH SLASH). rewrite H. reflexivity. }
      subst q0. discriminate EI0.
    + destruct (exists_last (l := q0) ltac:(intro; subst; simpl in Hlen; lia)) as [q1 [b Hb]].
      rewrite Hb, <- app_assoc, ends2slash_snoc2 in H. apply andb_true_iff in H as [_ H].
      rewrite Hb, endsWithChar_snoc, H in EC0. rewrite length_app in Hl. simpl in Hl.
      rewrite andb_true_r in EC0. apply Z.ltb_ge in EC0.
      rewrite Hb in Hl. repeat rewrite length_app in *. simpl in *. lia.
Qed.

(** C4 (counterexample): normalizePath strips exactly one trailing slash,
    so "/a//" becomes "/a/" and then "/a". *)
Lemma C4_normalizePath_not_idempotent :
  ~ (forall p, normalizePath (Some (normalizePath (Some p))) = normalizePath (Some p)).
Proof.
  intro H. specialize (H (js "/a//")). vm_compute in H. discriminate H.
Qed.

(** Claim C4 (corrected): normalizing twice equals normalizing once exactly
    for the inputs that, once the leading slash is added, are neither
    "/index.html/" nor longer than two characters ending in "//". *)
Theorem C4_normalizePath_idempotent_except : forall p : option jstr,
  normalizePath (Some (normalizePath p)) = normalizePath p <->
  ~ (lead_slash p = js "/index.html/" \/
     ((2 < List.length (lead_slash p))%nat /\ ends2slash (lead_slash p) = true)).
Proof.
  intro p. rewrite !normalizePath_lead.
  destruct (lead_slash_shape p) as [r Hr]. rewrite Hr.
  destruct (norm_q_shape r) as [r' Hr'].
  rewrite (lead_slash_fix (norm_q (SLASH :: r))) by (exists r'; exact Hr').
  apply norm_q_idem_iff.
Qed.

(** ** Concrete runs *)

Lemma initial_world0 : initial world0.
Proof. repeat split. Qed.

Lemma demo_w1_reachable : reachable demo_cfg (demo_w1, []).
Proof.
  exists world0. split; [exact initial_world0|].
  eapply steps_step; [apply steps_refl|].
  replace (demo_w1, @nil Pending) with
    (out_conf (nav_begin demo_cfg world0 (js "/") [] false false UReturns BReturns) [])
    by (vm_compute; reflexivity).
  apply StepNavigate.
Qed.

(** C10: a captured segment with a malformed percent-escape makes
    decodeURIComponent throw, so resolve throws instead of returning a
    route or null, and navigate rejects. *)
Theorem C10_resolve_throws_on_malformed_escape :
  resolve demo_cfg (js "/users/%") = Throw URIError /\
  resolve demo_cfg (js "/users/%zz") = Throw URIError /\
  nav_begin demo_cfg world0 (js "/users/%") [] false false UReturns BReturns = OFail world0.
Proof. vm_compute. repeat split. Qed.

(** C6 (counterexample): after navigating to "/" and calling stop(),
    getCurrent() still reports the home view at "/". *)
Lemma C6_getCurrent_after_stop_unchanged_example :
  reachable demo_cfg (demo_w1, []) /\
  getCurrent demo_w1 = (Some (js "home"), Some (js "/"), []) /\
  getCurrent (stop demo_w1) = getCurrent demo_w1.
Proof.
  split; [exact demo_w1_reachable|]. vm_compute. split; reflexivity.
Qed.

(** Claim C6 (corrected): stop() leaves NavigationState as it was:
    getCurrent() after stop() reports the same view, path and search. *)
Theorem C6_stop_keeps_current : forall w : World,
  current (stop w) = current w /\ getCurrent (stop w) = getCurrent w.
Proof.
  intro w. unfold stop, getCurrent. cbn. destruct (unboot (current w)); split; reflexivity.
Qed.

(** C5 (code bug): when the view's boot rejects, navigate rejects at the
    await: no history entry for "/users/7", NavigationState and the view
    attribute still name "home", and the transition markers stay on. *)
Theorem C5_boot_rejection_stops_navigation :
  exists fr w2,
    demo_o2 = OWait w2 (AtBoot fr) /\
    f_view fr = js "user" /\
    resume demo_cfg w2 (AtBoot fr) BReturns BRejected = OFail w2 /\
    hist w2 = [HPush (js "/")] /\
    hist w2 = hist demo_w1 /\
    current w2 = current demo_w1 /\
    htmlTransitioning w2 = Some (js "on") /\
    s_transitioning (store w2) = Some true /\
    htmlView w2 = Some (js "home").
Proof.
  vm_compute. eexists. eexists. split; [reflexivity|].
  repeat split; reflexivity.
Qed.

(** ** compilePattern *)

Lemma escapeRe_render : forall s, escapeRe s = render (map RChar s).
Proof. induction s as [|c s IH]; simpl; [reflexivity|]. rewrite IH. reflexivity. Qed.

Lemma render_app : forall a b, render (a ++ b) = render a ++ render b.
Proof. intros. unfold render. apply flat_map_app. Qed.

Lemma escapeRe_app : forall a b, escapeRe (a ++ b) = escapeRe a ++ escapeRe b.
Proof. intros. unfold escapeRe. apply flat_map_app. Qed.

Lemma identChar_not_colon : forall c, isIdentChar c = true -> (c =? COLON) = false.
Proof.
  intros c H. destruct (Z.eqb_spec c COLON) as [->|]; [|reflexivity].
  vm_compute in H. discriminate H.
Qed.

Lemma compile_parts_split : forall s,
  (forall acc i, Nat.odd i = false ->
     compile_parts i (split_go s false acc) =
     (escapeRe (rev acc) ++ render (spec_nodes_go s false), spec_names s)) /\
  (forall cur i, Nat.odd i = true ->
     compile_parts i (split_go s true cur) =
     (GROUP_SRC ++ render (spec_nodes_go s true), (rev cur ++ take_ident s) :: spec_names s)).
Proof.
  induction s as [|c rest [IHl IHn]].
  - split; intros acc i Hi; simpl; rewrite Hi; simpl.
    + rewrite !app_nil_r. reflexivity.
    + rewrite Nat.odd_succ, <- Nat.negb_odd, Hi. simpl. rewrite !app_nil_r. reflexivity.
  - split.
    + intros acc i Hi. simpl.
      destruct ((c =? COLON) && startsIdent rest) eqn:Tok; simpl.
      * rewrite (IHn [] (S i)) by (rewrite Nat.odd_succ, <- Nat.negb_odd, Hi; reflexivity).
        rewrite Hi. reflexivity.
      * rewrite (IHl (c :: acc) i Hi). simpl. rewrite escapeRe_app, <- app_assoc.
        f_equal. f_equal. simpl. rewrite app_nil_r. reflexivity.
    + intros cur i Hi. simpl.
      destruct (isIdentChar c) eqn:Id; simpl.
      * rewrite (IHn (c :: cur) i Hi). simpl. rewrite identChar_not_colon by exact Id.
        simpl. rewrite <- app_assoc. reflexivity.
      * destruct ((c =? COLON) && startsIdent rest) eqn:Tok; simpl.
        -- rewrite (IHn [] (S (S i))) by (rewrite !Nat.odd_succ, Nat.even_succ; exact Hi).
           rewrite Hi, Nat.odd_succ, <- Nat.negb_odd, Hi. simpl. rewrite !app_nil_r. reflexivity.
        -- rewrite (IHl [c] (S i)) by (rewrite Nat.odd_succ, <- Nat.negb_odd, Hi; reflexivity).
           rewrite Hi. simpl. rewrite !app_nil_r. reflexivity.
Qed.

Lemma compilePattern_shape : forall t,
  regexSrc (compilePattern t) = render (RBegin :: spec_nodes t ++ [REnd]) /\
  paramNames (compilePattern t) = spec_names t.
Proof.
  intro t. unfold compilePattern, splitParams.
  rewrite (proj1 (compile_parts_split t) [] 0%nat eq_refl). simpl.
  rewrite render_app. split; reflexivity.
Qed.

Lemma isReMeta_special : forall c, isReMeta c = false ->
  (c =? BSLASH) = false /\ (c =? ch "(") = false /\ (c =? ch "^") = false /\ (c =? ch "$") = false.
Proof.
  intros c H.
  destruct (Z.eqb_spec c BSLASH) as [->|]; [vm_compute in H; discriminate H|].
  destruct (Z.eqb_spec c (ch "(")) as [->|]; [vm_compute in H; discriminate H|].
  destruct (Z.eqb_spec c (ch "^")) as [->|]; [vm_compute in H; discriminate H|].
  destruct (Z.eqb_spec c (ch "$")) as [->|]; [vm_compute in H; discriminate H|].
  repeat split.
Qed.

Lemma parseRe_plain : forall f c rest, isReMeta c = false ->
  parseRe (S f) (c :: rest) = option_map (cons (RChar c)) (parseRe f rest).
Proof.
  intros f c rest M. destruct (isReMeta_special c M) as [E1 [E2 [E3 E4]]].
  cbn [parseRe]. rewrite E1, E2, E3, E4, M. reflexivity.
Qed.

Lemma parseRe_escape : forall f c rest, isReMeta c = true ->
  parseRe (S f) (BSLASH :: c :: rest) = option_map (cons (RChar c)) (parseRe f rest).
Proof.
  intros f c rest M. cbn [parseRe]. rewrite Z.eqb_refl, M. reflexivity.
Qed.

Lemma parseRe_group : forall f rest,
  parseRe (S f) (GROUP_SRC ++ rest) = option_map (cons RGroup) (parseRe f rest).
Proof. intros. reflexivity. Qed.

Lemma parseRe_begin : forall f rest,
  parseRe (S f) (ch "^" :: rest) = option_map (cons RBegin) (parseRe f rest).
Proof. intros. reflexivity. Qed.

Lemma parseRe_end : forall f rest,
  parseRe (S f) (ch "$" :: rest) = option_map (cons REnd) (parseRe f rest).
Proof. intros. reflexivity. Qed.

Lemma parseRe_render : forall ns f,
  (List.length (render ns) < f)%nat -> parseRe f (render ns) = Some ns.
Proof.
  induction ns as [|n ns IH]; intros f Hf.
  - destruct f; [lia|]. reflexivity.
  - destruct f as [|f]; [lia|].
    change (render (n :: ns)) with (render_node n ++ render ns) in Hf |- *.
    rewrite length_app in Hf.
    destruct n as [c| | |].
    + unfold render_node in Hf |- *. destruct (isReMeta c) eqn:M; simpl in Hf.
      * simpl app. rewrite parseRe_escape by exact M. rewrite (IH f) by lia. reflexivity.
      * simpl app. rewrite parseRe_plain by exact M. rewrite (IH f) by lia. reflexivity.
    + unfold render_node in Hf |- *. rewrite parseRe_group.
      change (List.length GROUP_SRC) with 7%nat in Hf. rewrite (IH f) by lia. reflexivity.
    + unfold render_node in Hf |- *. simpl app. rewrite parseRe_begin.
      rewrite (IH f) by (simpl in Hf; lia). reflexivity.
    + unfold render_node in Hf |- *. simpl app. rewrite parseRe_end.
      rewrite (IH f) by (simpl in Hf; lia). reflexivity.
Qed.

Lemma count_groups_cons_group : forall ns, count_groups (RGroup :: ns) = S (count_groups ns).
Proof. reflexivity. Qed.

Lemma count_groups_cons_char : forall c ns, count_groups (RChar c :: ns) = count_groups ns.
Proof. reflexivity. Qed.

Lemma count_groups_spec_nodes : forall s b,
  count_groups (spec_nodes_go s b) = List.length (spec_names s).
Proof.
  induction s as [|c rest IH]; intro b; [reflexivity|]. simpl.
  destruct (b && isIdentChar c) eqn:Hb.
  - apply andb_true_iff in Hb as [_ Hc]. rewrite identChar_not_colon by exact Hc. apply IH.
  - destruct ((c =? COLON) && startsIdent rest).
    + rewrite count_groups_cons_group, IH. reflexivity.
    + rewrite count_groups_cons_char. apply IH.
Qed.


Lemma spec_nodes_simple : forall s b, Forall simple_node (spec_nodes_go s b).
Proof.
  induction s as [|c rest IH]; intro b; simpl; [constructor|].
  destruct (b && isIdentChar c); [apply IH|].
  destruct ((c =? COLON) && startsIdent rest); constructor; simpl; auto.
Qed.

Lemma try_len_some : forall cont s k caps, try_len cont s k = Some caps ->
  exists j caps', (1 <= j <= k)%nat /\ cont j = Some caps' /\ caps = firstn j s :: caps'.
Proof.
  intros cont s k. induction k as [|k IH]; intros caps H; simpl in H; [discriminate H|].
  destruct (cont (S k)) as [c'|] eqn:E.
  - injection H as <-. exists (S k), c'. repeat split; auto; lia.
  - destruct (IH caps H) as [j [c'' [Hj [Hc ->]]]]. exists j, c''. repeat split; auto; lia.
Qed.

Lemma try_len_none : forall cont s k, try_len cont s k = None ->
  forall j, (1 <= j <= k)%nat -> cont j = None.
Proof.
  intros cont s k. induction k as [|k IH]; intros H j Hj; [lia|]. simpl in H.
  destruct (cont (S k)) eqn:E; [discriminate H|].
  destruct (Nat.eq_dec j (S k)) as [->|Hne]; [exact E|]. apply IH; [exact H|lia].
Qed.

Lemma nonslash_prefix : forall s j, (j <= nonslash_len s)%nat ->
  Forall (fun c => c <> SLASH) (firstn j s) /\ List.length (firstn j s) = j.
Proof.
  induction s as [|c s IH]; intros j Hj; simpl in Hj.
  - assert (j = 0%nat) by lia. subst. split; [constructor|reflexivity].
  - destruct (Z.eqb_spec c SLASH) as [E|E].
    + assert (j = 0%nat) by lia. subst. split; [constructor|reflexivity].
    + destruct j as [|j]; [split; [constructor|reflexivity]|].
      simpl. destruct (IH j ltac:(lia)) as [H1 H2]. split; [constructor; auto|lia].
Qed.

Lemma nonslash_ge : forall seg s, Forall (fun c => c <> SLASH) seg ->
  (List.length seg <= nonslash_len (seg ++ s))%nat.
Proof.
  induction seg as [|c seg IH]; intros s H; simpl; [lia|].
  inversion H as [|? ? Hc Hseg]; subst.
  destruct (Z.eqb_spec c SLASH) as [E|E]; [contradiction|].
  specialize (IH s Hseg). lia.
Qed.

Lemma mt_sound : forall ns pos s caps, Forall simple_node ns ->
  mt (ns ++ [REnd]) pos s = Some caps -> full_match ns s caps.
Proof.
  induction ns as [|n ns IH]; intros pos s caps Hs H.
  - simpl in H. destruct s; [|discriminate H]. injection H as <-. constructor.
  - inversion Hs as [|? ? Hn Hns]; subst. destruct n as [c| | |]; try contradiction.
    + simpl in H. destruct s as [|d s]; [discriminate H|].
      destruct (Z.eqb_spec c d) as [<-|]; [|discriminate H].
      constructor. eapply IH; eauto.
    + simpl in H. apply try_len_some in H as [j [caps' [Hj [Hc ->]]]].
      destruct (nonslash_prefix s j ltac:(lia)) as [Hf Hl].
      pose proof (fm_group ns (firstn j s) (skipn j s) caps') as G.
      rewrite firstn_skipn in G. apply G; auto.
      * intro E. rewrite E in Hl. simpl in Hl. lia.
      * eapply IH; eauto.
Qed.

Lemma mt_complete : forall ns s caps, full_match ns s caps ->
  forall pos, mt (ns ++ [REnd]) pos s <> None.
Proof.
  intros ns s caps H. induction H as [|c ns s caps H IH|ns seg s caps Hne Hf H IH];
    intro pos; simpl.
  - discriminate.
  - rewrite Z.eqb_refl. apply IH.
  - intro Hn. pose proof (nonslash_ge seg s Hf) as Hge.
    assert (Hl : (1 <= List.length seg)%nat) by (destruct seg; [contradiction|simpl; lia]).
    pose proof (try_len_none _ _ _ Hn (List.length seg) (conj Hl Hge)) as Hc.
    simpl in Hc. rewrite skipn_app, skipn_all, Nat.sub_diag in Hc. simpl in Hc.
    exact (IH _ Hc).
Qed.

Lemma full_match_caps : forall ns s caps, full_match ns s caps ->
  List.length caps = count_groups ns.
Proof.
  intros ns s caps H. induction H; simpl; [reflexivity| |].
  - rewrite count_groups_cons_char. assumption.
  - rewrite count_groups_cons_group. f_equal. assumption.
Qed.

Lemma exec_from_begin_late : forall ns s pos, (0 < pos)%nat -> exec_from (RBegin :: ns) pos s = None.
Proof.
  intros ns s. induction s as [|c s IH]; intros pos Hp; simpl;
    destruct pos as [|pos]; try lia; simpl; [reflexivity|]. apply IH. lia.
Qed.

Lemma exec_begin : forall ns s, exec (RBegin :: ns) s = mt ns 0 s.
Proof.
  intros ns s. unfold exec. destruct s as [|c s]; cbn [exec_from]; change (mt (RBegin :: ns) 0 ?x) with (mt ns 0 x);
    destruct (mt ns 0 _); [reflexivity|reflexivity|reflexivity|].
  apply exec_from_begin_late. lia.
Qed.

Lemma spec_nodes_no_params : forall t, spec_names t = [] -> spec_nodes_go t false = map RChar t.
Proof.
  induction t as [|c t IH]; intro H; simpl in *; [reflexivity|].
  destruct ((c =? COLON) && startsIdent t); [discriminate H|]. f_equal. apply IH, H.
Qed.

Lemma full_match_literal : forall t s caps, full_match (map RChar t) s caps <-> s = t /\ caps = [].
Proof.
  induction t as [|c t IH]; intros s caps; split.
  - intro H. inversion H. auto.
  - intros [-> ->]. constructor.
  - intro H. inversion H as [|? ? s' ? Hm|]; subst. apply IH in Hm as [-> ->]. auto.
  - intros [-> ->]. constructor. apply IH. auto.
Qed.

Lemma exec_compiled_sound : forall t s caps,
  exec (RBegin :: spec_nodes t ++ [REnd]) s = Some caps -> full_match (spec_nodes t) s caps.
Proof.
  intros t s caps H. rewrite exec_begin in H.
  eapply mt_sound; [apply spec_nodes_simple|exact H].
Qed.

Lemma exec_compiled_complete : forall t s caps,
  full_match (spec_nodes t) s caps -> exists caps', exec (RBegin :: spec_nodes t ++ [REnd]) s = Some caps'.
Proof.
  intros t s caps H. rewrite exec_begin.
  destruct (mt (spec_nodes t ++ [REnd]) 0 s) as [c|] eqn:E; [eauto|].
  exfalso. exact (mt_complete _ _ _ H 0%nat E).
Qed.

(** Claim C3: for every template [t], [compilePattern t] lists as
    [paramNames] the names of the parameter tokens of [t] (a colon followed
    by an identifier) in left-to-right order; its regex source parses back
    to [^], one literal (escaped) character per literal character of [t],
    one group [([^/]+)] per token, and [$]; the number of groups equals the
    number of names; the compiled regex matches a path exactly when the
    whole path splits into the literal characters and non-empty runs of
    non-slash characters, the captures being those runs, one per name;
    and a template without tokens has no names and matches only itself. *)
Theorem C3_compilePattern_spec : forall t,
  let cp := compilePattern t in
  let ns := RBegin :: spec_nodes t ++ [REnd] in
  paramNames cp = spec_names t /\
  parseRegExp (regexSrc cp) = Some ns /\
  count_groups (spec_nodes t) = List.length (paramNames cp) /\
  (forall s caps, exec ns s = Some caps ->
     full_match (spec_nodes t) s caps /\ List.length caps = List.length (paramNames cp)) /\
  (forall s caps, full_match (spec_nodes t) s caps -> exists caps', exec ns s = Some caps') /\
  (spec_names t = [] -> paramNames cp = [] /\
     forall s, (exists caps, exec ns s = Some caps) <-> s = t).
Proof.
  intros t cp ns. destruct (compilePattern_shape t) as [Hs Hn].
  assert (Hc : count_groups (spec_nodes t) = List.length (paramNames cp))
    by (unfold cp; rewrite Hn; apply count_groups_spec_nodes).
  split; [exact Hn|]. split.
  { unfold parseRegExp, cp, ns. rewrite Hs. apply parseRe_render. lia. }
  split; [exact Hc|]. split.
  { intros s caps H. pose proof (exec_compiled_sound _ _ _ H) as Hm.
    split; [exact Hm|]. rewrite <- Hc. eapply full_match_caps; eauto. }
  split; [apply exec_compiled_complete|].
  intro H0. split; [unfold cp; rewrite Hn; exact H0|]. intro s.
  assert (Hl : spec_nodes t = map RChar t) by exact (spec_nodes_no_params t H0). split.
  - intros [caps H]. apply exec_compiled_sound in H.
    rewrite Hl in H. apply full_match_literal in H. tauto.
  - intros ->. apply (exec_compiled_complete t t []).
    rewrite Hl. apply full_match_literal. auto.
Qed.

Lemma regexOf_spec : forall r, regexOf r = RBegin :: spec_nodes (r_path r) ++ [REnd].
Proof.
  intro r. unfold regexOf, parseRegExp. destruct (compilePattern_shape (r_path r)) as [Hs _].
  rewrite Hs, parseRe_render by lia. reflexivity.
Qed.


Lemma obj_get_update : forall o k v o', obj_update o k v = Some o' ->
  forall k', obj_get o' k' = if jstr_eqb k' k then Some v else obj_get o k'.
Proof.
  induction o as [|[k1 v1] o IH]; intros k v o' H k'; simpl in H; [discriminate H|].
  destruct (jstr_eqb k k1) eqn:E.
  - injection H as <-. apply jstr_eqb_eq in E. subst k1. simpl. destruct (jstr_eqb k' k); reflexivity.
  - destruct (obj_update o k v) as [o''|] eqn:Eu; [|discriminate H]. injection H as <-. simpl.
    rewrite (IH _ _ _ Eu k'). destruct (jstr_eqb k' k1) eqn:E1; [|reflexivity].
    apply jstr_eqb_eq in E1. subst k1. destruct (jstr_eqb k' k) eqn:E2; [|reflexivity].
    apply jstr_eqb_eq in E2. subst. rewrite jstr_eqb_refl in E. discriminate E.
Qed.

Lemma obj_update_none : forall o k v, obj_update o k v = None -> obj_get o k = None.
Proof.
  induction o as [|[k1 v1] o IH]; intros k v H; simpl in *; [reflexivity|].
  destruct (jstr_eqb k k1); [discriminate H|].
  destruct (obj_update o k v) eqn:E; [discriminate H|]. eapply IH; eauto.
Qed.

Lemma obj_get_snoc : forall o k v k', obj_get o k = None ->
  obj_get (o ++ [(k, v)]) k' = if jstr_eqb k' k then Some v else obj_get o k'.
Proof.
  induction o as [|[k1 v1] o IH]; intros k v k' H; simpl in *.
  - destruct (jstr_eqb k' k); reflexivity.
  - destruct (jstr_eqb k k1) eqn:E; [discriminate H|].
    destruct (jstr_eqb k' k1) eqn:E1.
    + apply jstr_eqb_eq in E1. subst k1. destruct (jstr_eqb k' k) eqn:E2; [|reflexivity].
      apply jstr_eqb_eq in E2. subst. rewrite jstr_eqb_refl in E. discriminate E.
    + apply IH. exact H.
Qed.

Lemma obj_get_set : forall o k v k', k <> PROTO ->
  obj_get (obj_set o k v) k' = if jstr_eqb k' k then Some v else obj_get o k'.
Proof.
  intros o k v k' Hp. unfold obj_set.
  destruct (jstr_eqb k PROTO) eqn:E; [apply jstr_eqb_eq in E; contradiction|].
  destruct (obj_update o k v) eqn:Eu.
  - apply obj_get_update. exact Eu.
  - apply obj_get_snoc. eapply obj_update_none; eauto.
Qed.







(** ** The scroll ledger *)



Lemma ledger_upd_absent : forall l k v, ~ In k (map fst l) -> map (ledger_upd k v) l = l.
Proof.
  induction l as [|[k1 v1] l IH]; intros k v H; [reflexivity|]. simpl in *.
  unfold ledger_upd at 1. simpl. destruct (jstr_eqb k k1) eqn:E.
  - apply jstr_eqb_eq in E. subst. exfalso. apply H. left. reflexivity.
  - rewrite IH by tauto. reflexivity.
Qed.

Lemma ledger_put_present : forall l k v, NoDup (map fst l) -> In k (map fst l) ->
  ledger_put l k v = map (ledger_upd k v) l.
Proof.
  induction l as [|[k1 v1] l IH]; intros k v Hn Hi; [destruct Hi|]. simpl in *.
  inversion Hn as [|? ? Hk1 Hn']; subst. unfold ledger_upd at 1. simpl.
  destruct (jstr_eqb k k1) eqn:E.
  - apply jstr_eqb_eq in E. subst. rewrite ledger_upd_absent by exact Hk1. reflexivity.
  - destruct Hi as [Hi|Hi]; [subst; rewrite jstr_eqb_refl in E; discriminate E|].
    rewrite IH by assumption. reflexivity.
Qed.

Lemma ledger_put_absent : forall l k v, ~ In k (map fst l) -> ledger_put l k v = l ++ [(k, v)].
Proof.
  induction l as [|[k1 v1] l IH]; intros k v H; [reflexivity|]. simpl in *.
  destruct (jstr_eqb k k1) eqn:E.
  - apply jstr_eqb_eq in E. subst. exfalso. apply H. left. reflexivity.
  - rewrite IH by tauto. reflexivity.
Qed.


Lemma map_fst_upd : forall k v l, map fst (map (ledger_upd k v) l) = map fst l.
Proof.
  intros k v l. rewrite map_map. apply map_ext. intros [k1 v1]. unfold ledger_upd. simpl.
  destruct (jstr_eqb k k1); reflexivity.
Qed.

Lemma ledger_record_cases : forall l k v, NoDup (map fst l) -> (List.length l <= 50)%nat ->
  ledger_record l k v =
    if in_keys_dec k (map fst l) then map (ledger_upd k v) l
    else if (List.length l <? 50)%nat then l ++ [(k, v)] else tl l ++ [(k, v)].
Proof.
  intros l k v Hn Hl. unfold ledger_record. destruct (in_keys_dec k (map fst l)) as [Hi|Hi].
  - rewrite ledger_put_present by assumption. rewrite length_map.
    destruct (Nat.ltb_spec 50 (List.length l)); [lia|reflexivity].
  - rewrite ledger_put_absent by assumption. rewrite length_app. simpl.
    destruct (Nat.ltb_spec (List.length l) 50); destruct (Nat.ltb_spec 50 (List.length l + 1));
      try lia.
    + reflexivity.
    + destruct l; [simpl in *; lia|reflexivity].
Qed.

Lemma ledger_record_ok : forall l k v, ledger_ok l -> ledger_ok (ledger_record l k v).
Proof.
  intros l k v [Hl Hn]. rewrite ledger_record_cases by assumption.
  destruct (in_keys_dec k (map fst l)) as [Hi|Hi].
  - split; [rewrite length_map; exact Hl|rewrite map_fst_upd; exact Hn].
  - assert (Hnd : NoDup (map fst (l ++ [(k, v)]))).
    { rewrite map_app. simpl. apply NoDup_app; [exact Hn|constructor; [intros []|constructor]|].
      intros x Hx [<-|[]]. contradiction. }
    destruct (Nat.ltb_spec (List.length l) 50).
    + split; [rewrite length_app; simpl; lia|exact Hnd].
    + destruct l as [|e l]; [simpl in *; lia|]. simpl tl.
      split; [rewrite length_app; simpl in *; lia|].
      simpl in Hnd. inversion Hnd. assumption.
Qed.

Ltac crush_matches :=
  repeat match goal with
         | |- context [match ?x with _ => _ end] => destruct x
         | |- context [if ?x then _ else _] => destruct x
         end.

Lemma store_write_sp : forall cfg f w, scrollPositions (store_write cfg f w) = scrollPositions w.
Proof. intros. unfold store_write. destruct (hasStore cfg && negb (storeFails w)); reflexivity. Qed.

Lemma after_boot_sp : forall cfg w fr r,
  scrollPositions (out_world (after_boot cfg w fr r)) = scrollPositions w.
Proof.
  intros cfg w fr r. unfold after_boot. destruct r as [ub|]; [|reflexivity].
  destruct (aborted_b w (f_sig fr)); [reflexivity|]. cbv zeta.
  crush_matches; cbn [out_world scrollPositions set_scrollXY set_rootFocused set_rootTabindex
    set_navLinks set_htmlTransitioning set_htmlView set_locSearch set_locPath set_hist];
    rewrite store_write_sp; reflexivity.
Qed.

Lemma after_unboot_sp : forall cfg w fr bb,
  scrollPositions (out_world (after_unboot cfg w fr bb)) = scrollPositions w.
Proof.
  intros cfg w fr bb. unfold after_unboot. destruct (f_boot fr); [destruct bb; reflexivity|].
  rewrite after_boot_sp. reflexivity.
Qed.

Lemma nav_begin_sp : forall cfg w pathname search rep rs uc bc,
  let w' := out_world (nav_begin cfg w pathname search rep rs uc bc) in
  scrollPositions w' = scrollPositions w \/
  exists k v, scrollPositions w' = ledger_record (scrollPositions w) k v.
Proof.
  intros cfg w pathname search rep rs uc bc w'. subst w'. unfold nav_begin.
  destruct (negb (rootPresent w)); [left; reflexivity|].
  destruct (resolve cfg _) as [[res|]|e]; [|left; reflexivity|left; reflexivity].
  cbv zeta. destruct (_ && _); [left; reflexivity|].
  set (w2 := store_write cfg _ _).
  assert (Hw2 : scrollPositions w2 = scrollPositions w) by (subst w2; rewrite store_write_sp; destruct (navController w); reflexivity).
  assert (H3 : forall w3, (scrollPositions w3 = scrollPositions w \/
            exists k v, scrollPositions w3 = ledger_record (scrollPositions w) k v) ->
     forall o, scrollPositions (out_world o) = scrollPositions w3 ->
     scrollPositions (out_world o) = scrollPositions w \/
     exists k v, scrollPositions (out_world o) = ledger_record (scrollPositions w) k v).
  { intros w3 Hw3 o Ho. rewrite Ho. exact Hw3. }
  match goal with |- context [match unboot (current ?w3) with _ => _ end] =>
    apply (H3 w3); [|destruct (unboot (current w3)); [destruct uc|]; cbn [out_world];
       rewrite ?after_unboot_sp; reflexivity] end.
  destruct (cpath (current w2)) as [[|c p]|].
  - left. exact Hw2.
  - right. exists (c :: p), (scrollXY w2). cbn. rewrite Hw2. reflexivity.
  - left. exact Hw2.
Qed.

Lemma out_conf_fst : forall o ps, fst (out_conf o ps) = out_world o.
Proof. intros [w|w|w p] ps; reflexivity. Qed.

Lemma stop_sp : forall w, scrollPositions (stop w) = scrollPositions w.
Proof. intro w. unfold stop. cbn. destruct (unboot (current w)); reflexivity. Qed.

Lemma env_apply_sp : forall e w, scrollPositions (env_apply e w) = scrollPositions w.
Proof. intros [] w; reflexivity. Qed.

Lemma steps_ledger_ok : forall cfg c1 c2, steps cfg c1 c2 ->
  ledger_ok (scrollPositions (fst c1)) -> ledger_ok (scrollPositions (fst c2)).
Proof.
  intros cfg c1 c2 Hs. induction Hs as [c|c1 c2 c3 Hs IH Hst]; intro H0; [exact H0|].
  specialize (IH H0). inversion Hst; subst; simpl in *.
  - rewrite out_conf_fst. destruct (nav_begin_sp cfg w pathname search rep rs uc bc) as [E|[k [v E]]];
      rewrite E; [exact IH|apply ledger_record_ok; exact IH].
  - rewrite out_conf_fst. destruct p; simpl;
      [rewrite after_unboot_sp|rewrite after_boot_sp]; exact IH.
  - rewrite stop_sp. exact IH.
  - rewrite env_apply_sp. exact IH.
Qed.

Lemma reachable_ledger_ok : forall cfg w ps, reachable cfg (w, ps) -> ledger_ok (scrollPositions w).
Proof.
  intros cfg w ps [w0 [[_ [_ [_ Hsp]]] Hs]].
  apply (steps_ledger_ok _ _ _ Hs). simpl. rewrite Hsp. split; [simpl; lia|constructor].
Qed.

(** Claim C9: in every reachable state the scroll ledger has at most 50
    entries, with distinct paths; and recording the offset [v] of a path
    [k] updates [k]'s entry in place when [k] is already there (it keeps
    its place in insertion order), appends [(k, v)] when there are fewer
    than 50 entries, and otherwise evicts the first-inserted entry and
    appends [(k, v)]. *)
Theorem C9_scroll_ledger_bounded_fifo :
  (forall cfg w ps, reachable cfg (w, ps) ->
     (List.length (scrollPositions w) <= 50)%nat /\ NoDup (map fst (scrollPositions w))) /\
  (forall l k v, NoDup (map fst l) -> (List.length l <= 50)%nat ->
     ledger_record l k v =
       if in_keys_dec k (map fst l) then map (ledger_upd k v) l
       else if (List.length l <? 50)%nat then l ++ [(k, v)] else tl l ++ [(k, v)]).
Proof.
  split.
  - exact reachable_ledger_ok.
  - exact ledger_record_cases.
Qed.

Lemma C9_scroll_ledger_bounded_fifo_witness :
  (List.length (scrollPositions demo_w1) <= 50)%nat /\
  ledger_record (map (fun i => ([Z.of_nat i], (0, 0))) (seq 0 50)) (js "/users") (3, 4) =
    map (fun i => ([Z.of_nat i], (0, 0))) (seq 1 49) ++ [(js "/users", (3, 4))].
Proof.
  split.
  - apply (proj1 C9_scroll_ledger_bounded_fifo demo_cfg demo_w1 []). exact demo_w1_reachable.
  - rewrite (proj2 C9_scroll_ledger_bounded_fifo).
    + vm_compute. reflexivity.
    + rewrite map_map. apply NoDup_map_NoDup_ForallPairs.
      * intros i j _ _ E. simpl in E. injection E as E. lia.
      * apply seq_NoDup.
    + rewrite length_map, length_seq. lia.
Defined.

(** ** What each phase of navigate does to the controller and NavigationState *)

Lemma store_write_fields : forall cfg f w,
  navController (store_write cfg f w) = navController w /\ aborted (store_write cfg f w) = aborted w /\
  nextCtl (store_write cfg f w) = nextCtl w /\ current (store_write cfg f w) = current w.
Proof. intros. unfold store_write. destruct (_ && _); repeat split. Qed.

Lemma after_boot_shape : forall cfg w fr r,
  exists w', (after_boot cfg w fr r = ODone w' \/ after_boot cfg w fr r = OFail w') /\
    navController w' = navController w /\ aborted w' = aborted w /\ nextCtl w' = nextCtl w /\
    (current w' = current w \/ cpath (current w') = Some (f_appPath fr)).
Proof.
  intros cfg w fr r. unfold after_boot. destruct r as [ub|].
  2:{ exists w. split; [right; reflexivity|]. repeat split. left. reflexivity. }
  destruct (aborted_b w (f_sig fr)).
  { exists w. split; [left; reflexivity|]. repeat split. left. reflexivity. }
  cbv zeta. eexists. split; [left; reflexivity|].
  match goal with |- context [store_write cfg ?f ?w1] =>
    destruct (store_write_fields cfg f w1) as [E1 [E2 [E3 E4]]] end.
  crush_matches; cbn [navController aborted nextCtl current set_scrollXY set_rootFocused
    set_rootTabindex set_navLinks set_htmlTransitioning set_htmlView set_locSearch set_locPath
    set_hist]; rewrite ?E1, ?E2, ?E3, ?E4; repeat split; right; reflexivity.
Qed.

Lemma after_unboot_shape : forall cfg w fr bb,
  (exists w', after_unboot cfg w fr bb = OWait w' (AtBoot fr) /\
     navController w' = navController w /\ aborted w' = aborted w /\ nextCtl w' = nextCtl w /\
     current w' = current w) \/
  (exists w', (after_unboot cfg w fr bb = ODone w' \/ after_unboot cfg w fr bb = OFail w') /\
     navController w' = navController w /\ aborted w' = aborted w /\ nextCtl w' = nextCtl w /\
     (current w' = current w \/ cpath (current w') = Some (f_appPath fr))).
Proof.
  intros cfg w fr bb. unfold after_unboot. destruct (f_boot fr) as [b|].
  - destruct bb; [right|left]; eexists; (split; [try (left; reflexivity); try (right; reflexivity); reflexivity|]);
      cbn; repeat split; try (left; reflexivity).
  - right. destruct (after_boot_shape cfg (set_rootClears (S (rootClears w)) w) fr (BResolved None))
      as [w' [Ho [E1 [E2 [E3 E4]]]]].
    exists w'. split; [exact Ho|]. cbn in *. repeat split; assumption.
Qed.

Lemma nav_begin_shape : forall cfg w pathname search rep rs uc bc,
  let o := nav_begin cfg w pathname search rep rs uc bc in
  (o = ODone w \/ o = OFail w) \/
  exists fr res, f_sig fr = nextCtl w /\
    f_appPath fr = normalizePath (Some (stripBase (basePath cfg) pathname)) /\
    resolve cfg (f_appPath fr) = Ok (Some res) /\
    navController (out_world o) = Some (nextCtl w) /\
    nextCtl (out_world o) = S (nextCtl w) /\
    aborted (out_world o) =
      match navController w with Some old => old :: aborted w | None => aborted w end /\
    (current (out_world o) = current w \/ cpath (current (out_world o)) = Some (f_appPath fr)) /\
    (forall w' p, o = OWait w' p -> frame_of p = fr).
Proof.
  intros cfg w pathname search rep rs uc bc o. subst o. unfold nav_begin.
  destruct (negb (rootPresent w)); [left; right; reflexivity|].
  destruct (resolve cfg _) as [[res|]|e] eqn:Hres; [|left; left; reflexivity|left; right; reflexivity].
  cbv zeta. destruct (_ && _); [left; left; reflexivity|]. right.
  set (w2 := store_write cfg _ _).
  destruct (store_write_fields cfg (with_transitioning true)
    (set_htmlTransitioning (Some (js "on")) (set_nextCtl (S (nextCtl w)) (set_navController (Some (nextCtl w))
      match navController w with Some old => set_aborted (old :: aborted w) w | None => w end))))
    as [E1 [E2 [E3 E4]]]. fold w2 in E1, E2, E3, E4.
  match goal with |- context [match unboot (current ?x) with _ => _ end] => set (w3 := x) end.
  assert (F : navController w3 = Some (nextCtl w) /\ nextCtl w3 = S (nextCtl w) /\
    aborted w3 = match navController w with Some old => old :: aborted w | None => aborted w end /\
    current w3 = current w).
  { subst w3. destruct (cpath (current w2)) as [[|c p]|]; cbn [navController nextCtl aborted current
      set_scrollPositions]; rewrite E1, E2, E3, E4; cbn; destruct (navController w); repeat split. }
  destruct F as [F1 [F2 [F3 F4]]]. clearbody w3.
  match goal with |- context [after_unboot cfg _ ?fr0 _] => set (fr := fr0) end.
  exists fr, res. split; [reflexivity|]. split; [reflexivity|]. split; [exact Hres|].
  destruct (unboot (current w3)) as [u|].
  - destruct uc.
    + destruct (after_unboot_shape cfg (set_unbootCalls (u :: unbootCalls w3) w3) fr bc)
        as [[w' [Ho [G1 [G2 [G3 G4]]]]]|[w' [Ho [G1 [G2 [G3 G4]]]]]].
      * rewrite Ho. cbn [out_world] in *. cbn in G1, G2, G3, G4.
        rewrite G1, G2, G3, G4, F1, F2, F3, F4. repeat split; [left; reflexivity|].
        intros w'' p E. injection E as _ <-. reflexivity.
      * cbn in G1, G2, G3, G4. rewrite F4 in G4.
        destruct Ho as [Ho|Ho]; rewrite Ho; cbn [out_world]; rewrite G1, G2, G3, F1, F2, F3;
          (repeat split; [exact G4|intros w'' p E; discriminate E]).
    + cbn [out_world]. cbn. rewrite F1, F2, F3, F4. repeat split; [left; reflexivity|].
      intros w'' p E. injection E as _ <-. reflexivity.
  - destruct (after_unboot_shape cfg w3 fr bc)
        as [[w' [Ho [G1 [G2 [G3 G4]]]]]|[w' [Ho [G1 [G2 [G3 G4]]]]]].
    + rewrite Ho. cbn [out_world]. rewrite G1, G2, G3, G4, F1, F2, F3, F4.
      repeat split; [left; reflexivity|]. intros w'' p E. injection E as _ <-. reflexivity.
    + rewrite F4 in G4.
      destruct Ho as [Ho|Ho]; rewrite Ho; cbn [out_world]; rewrite G1, G2, G3, F1, F2, F3;
        (repeat split; [exact G4|intros w'' p E; discriminate E]).
Qed.

Lemma nav_inv_same : forall cfg w w' ps ps' fr,
  nav_inv cfg (w, ps) ->
  navController w' = navController w -> aborted w' = aborted w -> nextCtl w' = nextCtl w ->
  (current w' = current w \/ cpath (current w') = Some (f_appPath fr)) ->
  (exists res, resolve cfg (f_appPath fr) = Ok (Some res)) ->
  Forall (fun pd => In pd ps \/ frame_of pd = fr) ps' ->
  (forall pd, In pd ps' -> frame_of pd = fr ->
     navController w = Some (f_sig fr) \/ In (f_sig fr) (aborted w)) ->
  nav_inv cfg (w', ps').
Proof.
  intros cfg w w' ps ps' fr [I1 [I2 I3]] E1 E2 E3 Hc Hr Hps Hsig. unfold nav_inv. simpl in *.
  split; [intros s Hs; rewrite E3; apply I1; rewrite <- E1; exact Hs|]. split.
  - intros p Hp. destruct Hc as [Hc|Hc].
    + apply I2. rewrite <- Hc. exact Hp.
    + rewrite Hc in Hp. injection Hp as <-. exact Hr.
  - rewrite Forall_forall in Hps |- *. rewrite Forall_forall in I3. intros pd Hin.
    rewrite E1, E2. destruct (Hps pd Hin) as [Hold|Hfr].
    + apply I3. exact Hold.
    + rewrite Hfr. split; [apply (Hsig pd Hin Hfr)|exact Hr].
Qed.

Lemma nav_inv_eq : forall cfg w w' ps,
  navController w' = navController w -> aborted w' = aborted w -> nextCtl w' = nextCtl w ->
  current w' = current w -> nav_inv cfg (w, ps) -> nav_inv cfg (w', ps).
Proof.
  intros cfg w w' ps E1 E2 E3 E4 [I1 [I2 I3]]. unfold nav_inv. simpl in *.
  rewrite ?E1, ?E2, ?E3, ?E4. auto.
Qed.

Lemma nav_inv_navigate : forall cfg w ps pathname search rep rs uc bc,
  nav_inv cfg (w, ps) ->
  nav_inv cfg (out_conf (nav_begin cfg w pathname search rep rs uc bc) ps).
Proof.
  intros cfg w ps pathname search rep rs uc bc H.
  destruct (nav_begin_shape cfg w pathname search rep rs uc bc)
    as [[E|E]|[fr [res [Hsig [_ [Hres [N1 [N2 [N3 [Hc Hw]]]]]]]]]];
    [rewrite E; exact H|rewrite E; exact H|].
  destruct H as [I1 [I2 I3]]. cbn [fst snd] in I1, I2, I3.
  destruct (nav_begin cfg w pathname search rep rs uc bc) as [w'|w'|w' p]; cbn [out_world] in *;
    unfold nav_inv; cbn [out_conf fst snd].
  all: split; [intros s Hs; rewrite N1 in Hs; injection Hs as <-; exact N2|].
  all: split; [intros q Hq; destruct Hc as [Hc|Hc];
               [apply I2; rewrite <- Hc; exact Hq|rewrite Hc in Hq; injection Hq as <-; eauto]|].
  all: assert (Hold : Forall (fun pd =>
      (navController w' = Some (f_sig (frame_of pd)) \/ In (f_sig (frame_of pd)) (aborted w')) /\
      exists res, resolve cfg (f_appPath (frame_of pd)) = Ok (Some res)) ps)
      by (eapply Forall_impl; [|exact I3]; intros pd [[Hn|Hn] Hr]; split; [|exact Hr| |exact Hr];
          right; rewrite N3; [rewrite Hn; left; reflexivity|destruct (navController w); [right|]; exact Hn]).
  all: try exact Hold.
  constructor; [|exact Hold]. rewrite (Hw w' p eq_refl), N1, Hsig. split; [left; reflexivity|eauto].
Qed.

Lemma nav_inv_resume : forall cfg w ps1 p ps2 bc r,
  nav_inv cfg (w, ps1 ++ p :: ps2) ->
  nav_inv cfg (out_conf (resume cfg w p bc r) (ps1 ++ ps2)).
Proof.
  intros cfg w ps1 p ps2 bc r H.
  pose proof H as [_ [_ I3]]. cbn [snd] in I3.
  assert (Hp : In p (ps1 ++ p :: ps2)) by (apply in_or_app; right; left; reflexivity).
  rewrite Forall_forall in I3. destruct (I3 p Hp) as [Hsig Hr].
  assert (Hsub : forall pd, In pd (ps1 ++ ps2) -> In pd (ps1 ++ p :: ps2)).
  { intros pd Hin. apply in_app_or in Hin as [Hin|Hin]; apply in_or_app; [left|right; right]; exact Hin. }
  destruct p as [fr|fr]; cbn [resume frame_of] in *.
  - destruct (after_unboot_shape cfg w fr bc)
      as [[w' [Ho [E1 [E2 [E3 E4]]]]]|[w' [Ho [E1 [E2 [E3 E4]]]]]].
    + rewrite Ho. cbn [out_conf].
      apply (nav_inv_same cfg w w' (ps1 ++ AtUnboot fr :: ps2) _ fr H E1 E2 E3 (or_introl E4) Hr).
      * constructor; [right; reflexivity|]. apply Forall_forall. intros pd Hin. left. auto.
      * intros. exact Hsig.
    + destruct Ho as [Ho|Ho]; rewrite Ho; cbn [out_conf];
        (apply (nav_inv_same cfg w w' (ps1 ++ AtUnboot fr :: ps2) _ fr H E1 E2 E3 E4 Hr);
         [apply Forall_forall; intros pd Hin; left; auto|intros; exact Hsig]).
  - destruct (after_boot_shape cfg w fr r) as [w' [Ho [E1 [E2 [E3 E4]]]]].
    destruct Ho as [Ho|Ho]; rewrite Ho; cbn [out_conf];
      (apply (nav_inv_same cfg w w' (ps1 ++ AtBoot fr :: ps2) _ fr H E1 E2 E3 E4 Hr);
       [apply Forall_forall; intros pd Hin; left; auto|intros; exact Hsig]).
Qed.

Lemma nav_inv_steps : forall cfg c1 c2, steps cfg c1 c2 -> nav_inv cfg c1 -> nav_inv cfg c2.
Proof.
  intros cfg c1 c2 Hs. induction Hs as [c|c1 c2 c3 Hs IH Hst]; intro H0; [exact H0|].
  specialize (IH H0). inversion Hst; subst.
  - apply nav_inv_navigate. exact IH.
  - apply nav_inv_resume. exact IH.
  - apply (nav_inv_eq cfg w); [| | |unfold stop; cbn; destruct (unboot (current w))|exact IH];
      unfold stop; cbn; destruct (unboot (current w)); reflexivity.
  - apply (nav_inv_eq cfg w); [| | | |exact IH]; destruct e; reflexivity.
Qed.

Lemma reachable_nav_inv : forall cfg c, reachable cfg c -> nav_inv cfg c.
Proof.
  intros cfg c [w0 [[Hc [Hn [_ _]]] Hs]]. apply (nav_inv_steps _ _ _ Hs).
  unfold nav_inv. cbn [fst snd]. rewrite Hn, Hc. split; [discriminate|].
  split; [discriminate|constructor].
Qed.

Lemma demo_c3_reachable : reachable demo_cfg demo_c3.
Proof.
  exists world0. split; [exact initial_world0|].
  apply steps_step with (c2 := (fst demo_c2, snd demo_c2)).
  - apply steps_step with (c2 := (demo_w1, [])).
    + eapply steps_step; [apply steps_refl|].
      replace (demo_w1, @nil Pending) with
        (out_conf (nav_begin demo_cfg world0 (js "/") [] false false UReturns BReturns) [])
        by (vm_compute; reflexivity).
      apply StepNavigate.
    + rewrite <- surjective_pairing. unfold demo_c2, demo_o2. apply StepNavigate.
  - unfold demo_c3. apply StepNavigate.
Qed.

Lemma aborted_b_in : forall w s, In s (aborted w) -> aborted_b w s = true.
Proof.
  intros w s H. unfold aborted_b. apply existsb_exists. exists s. split; [exact H|apply Nat.eqb_refl].
Qed.

Lemma after_boot_aborted : forall cfg w fr r, In (f_sig fr) (aborted w) ->
  out_world (after_boot cfg w fr r) = w.
Proof.
  intros cfg w fr r H. unfold after_boot. destruct r; [|reflexivity].
  rewrite aborted_b_in by exact H. reflexivity.
Qed.

Lemma resume_aborted_committed : forall cfg w p bc r, In (f_sig (frame_of p)) (aborted w) ->
  committed (out_world (resume cfg w p bc r)) = committed w.
Proof.
  intros cfg w [fr|fr] bc r H; cbn [resume frame_of] in *.
  - unfold after_unboot. destruct (f_boot fr); [destruct bc; reflexivity|].
    rewrite after_boot_aborted by exact H. reflexivity.
  - rewrite after_boot_aborted by exact H. reflexivity.
Qed.

(** Claim C1: in every reachable configuration, when a suspended
    navigation resumes (its view's unboot or boot settles) and its abort
    controller has been aborted by a newer navigation, NavigationState,
    history and the store are left exactly as they are (at the boot step
    the whole state is left as it is); so whenever resuming a navigation
    commits anything, its controller is the current one, the last one
    created ([nextCtl] is its successor), and it has not been aborted. *)
Theorem C1_superseded_navigation_commits_nothing : forall cfg w ps,
  reachable cfg (w, ps) -> forall p bc r, In p ps ->
  (In (f_sig (frame_of p)) (aborted w) ->
     committed (out_world (resume cfg w p bc r)) = committed w) /\
  (forall fr, p = AtBoot fr -> In (f_sig fr) (aborted w) ->
     out_world (resume cfg w p bc r) = w) /\
  (committed (out_world (resume cfg w p bc r)) <> committed w ->
     navController w = Some (f_sig (frame_of p)) /\ nextCtl w = S (f_sig (frame_of p)) /\
     ~ In (f_sig (frame_of p)) (aborted w)).
Proof.
  intros cfg w ps Hr p bc r Hin.
  destruct (reachable_nav_inv cfg (w, ps) Hr) as [I1 [_ I3]]. cbn [fst snd] in I1, I3.
  split; [apply resume_aborted_committed|]. split.
  { intros fr -> H. cbn [resume]. apply after_boot_aborted. exact H. }
  intro Hne. assert (Hna : ~ In (f_sig (frame_of p)) (aborted w)).
  { intro H. apply Hne. apply resume_aborted_committed. exact H. }
  rewrite Forall_forall in I3. destruct (I3 p Hin) as [[Hn|Hn] _]; [|contradiction].
  split; [exact Hn|]. split; [apply I1; exact Hn|exact Hna].
Qed.

Lemma C1_superseded_navigation_commits_nothing_witness :
  exists fr, snd demo_c3 = [AtBoot fr] /\ f_view fr = js "user" /\
    In (f_sig fr) (aborted (fst demo_c3)) /\
    viewKey (current (fst demo_c3)) = Some (js "users") /\
    out_world (resume demo_cfg (fst demo_c3) (AtBoot fr) BReturns (BResolved (Some 9%nat))) = fst demo_c3.
Proof.
  pose (dummy := {| f_sig := 0; f_appPath := []; f_search := []; f_view := []; f_boot := None;
                    f_params := []; f_replace := false; f_restore := false |}).
  exists (frame_of (hd (AtBoot dummy) (snd demo_c3))).
  assert (Hr : reachable demo_cfg (fst demo_c3, snd demo_c3))
    by (rewrite <- surjective_pairing; exact demo_c3_reachable).
  split; [vm_compute; reflexivity|]. split; [vm_compute; reflexivity|].
  split; [vm_compute; auto|]. split; [vm_compute; reflexivity|].
  apply (proj1 (proj2 (C1_superseded_navigation_commits_nothing demo_cfg (fst demo_c3) (snd demo_c3) Hr
    (AtBoot (frame_of (hd (AtBoot dummy) (snd demo_c3)))) BReturns (BResolved (Some 9%nat))
    ltac:(vm_compute; auto))) (frame_of (hd (AtBoot dummy) (snd demo_c3))) eq_refl).
  vm_compute; auto.
Defined.

(** Claim C7: in every reachable state, a navigate call whose normalized,
    base-stripped target path and whose search string (with its leading
    '?' added) are the current path and search changes nothing: it returns
    at once, without aborting anything, unbooting or booting a view,
    writing history or the store, or touching NavigationState (if the
    root element has been removed, getRoot() makes it reject, still
    without effect). *)
Theorem C7_same_route_noop : forall cfg w ps pathname search rep rs uc bc,
  reachable cfg (w, ps) ->
  cpath (current w) = Some (normalizePath (Some (stripBase (basePath cfg) pathname))) ->
  csearch (current w) = mkSearch search ->
  nav_begin cfg w pathname search rep rs uc bc = if rootPresent w then ODone w else OFail w.
Proof.
  intros cfg w ps pathname search rep rs uc bc Hr Hp Hs.
  destruct (reachable_nav_inv cfg (w, ps) Hr) as [_ [I2 _]]. cbn [fst] in I2.
  destruct (I2 _ Hp) as [res Hres].
  unfold nav_begin. destruct (rootPresent w); [|reflexivity]. cbn [negb].
  rewrite Hres. cbv zeta. rewrite Hp, Hs. cbn [opt_jstr_eqb]. rewrite !jstr_eqb_refl. reflexivity.
Qed.

Lemma C7_same_route_noop_witness :
  nav_begin demo_cfg demo_w1 (js "/index.html") [] true true UReturns BReturns = ODone demo_w1.
Proof.
  exact (C7_same_route_noop demo_cfg demo_w1 [] (js "/index.html") [] true true UReturns BReturns
    demo_w1_reachable ltac:(vm_compute; reflexivity) ltac:(vm_compute; reflexivity)).
Defined.

(** ** navigateQuery's merge *)

Lemma jstr_eqb_neq : forall a b, a <> b -> jstr_eqb a b = false.
Proof. intros a b H. destruct (jstr_eqb a b) eqn:E; [apply jstr_eqb_eq in E; contradiction|reflexivity]. Qed.



Lemma usp_getAll_cons : forall a b l k,
  usp_getAll ((a, b) :: l) k = if jstr_eqb k a then b :: usp_getAll l k else usp_getAll l k.
Proof. intros. unfold usp_getAll. simpl. destruct (jstr_eqb k a); reflexivity. Qed.










(** * Further properties of the router *)

(** ** Base path *)

Lemma startsWith_app : forall a b, startsWith (a ++ b) a = true.
Proof. induction a as [|x a IH]; intro b; simpl; [destruct b; reflexivity|]. rewrite Z.eqb_refl. apply IH. Qed.

Lemma startsWith_spec : forall s pre, startsWith s pre = true -> exists r, s = pre ++ r.
Proof.
  intros s pre. revert s. induction pre as [|x pre IH]; intros s H; [exists s; reflexivity|].
  destruct s as [|c s]; simpl in H; [discriminate H|].
  apply andb_true_iff in H as [E H]. apply Z.eqb_eq in E. subst.
  destruct (IH s H) as [r ->]. exists r. reflexivity.
Qed.

Lemma startsWith_refl : forall a, startsWith a a = true.
Proof. intro a. rewrite <- (app_nil_r a) at 1. apply startsWith_app. Qed.

Lemma skipn_length_app : forall (a b : jstr), skipn (List.length a) (a ++ b) = b.
Proof. induction a as [|x a IH]; intro b; [reflexivity|]. simpl. apply IH. Qed.

Lemma jstr_eqb_nil_false : forall (a : jstr), a <> [] -> jstr_eqb a [] = false.
Proof. intros [|x a] H; [contradiction|reflexivity]. Qed.

(** X1: [stripBase] undoes [withBase] on every path starting with '/';
    and [withBase] undoes [stripBase] on the base itself and on every
    path below it ([base + '/' + r], [r] non-empty). *)
Theorem X1_stripBase_withBase_roundtrip :
  (forall base p, startsWith p [SLASH] = true -> stripBase base (withBase base p) = p) /\
  (forall base p, base <> [] ->
     (p = base \/ exists r, r <> [] /\ p = base ++ SLASH :: r) ->
     withBase base (stripBase base p) = p).
Proof.
  split.
  - intros base p Hp. destruct base as [|b base].
    + reflexivity.
    + unfold withBase. cbn [jstr_eqb]. destruct (jstr_eqb p [SLASH]) eqn:E1.
      * apply jstr_eqb_eq in E1. subst p. unfold stripBase. rewrite startsWith_refl, skipn_all.
        reflexivity.
      * rewrite Hp. change ([] ++ p) with p. unfold stripBase. rewrite startsWith_app. cbn [jstr_eqb negb andb].
        rewrite skipn_length_app. destruct p as [|c p]; [discriminate Hp|]. rewrite Hp. reflexivity.
  - intros base p Hb [->|[r [Hr ->]]]; unfold stripBase.
    + rewrite jstr_eqb_nil_false by exact Hb. rewrite startsWith_refl, skipn_all. cbn. unfold withBase.
      rewrite jstr_eqb_nil_false by exact Hb. rewrite jstr_eqb_refl. reflexivity.
    + rewrite jstr_eqb_nil_false by exact Hb. rewrite startsWith_app, skipn_length_app. cbn.
      unfold withBase. rewrite jstr_eqb_nil_false by exact Hb.
      destruct r as [|c r]; [contradiction|]. reflexivity.
Qed.

Lemma X1_stripBase_withBase_roundtrip_witness :
  stripBase (js "/app") (withBase (js "/app") (js "/apps")) = js "/apps" /\
  withBase (js "/app") (stripBase (js "/app") (js "/app/users/7")) = js "/app/users/7".
Proof.
  split.
  - apply (proj1 X1_stripBase_withBase_roundtrip). reflexivity.
  - apply (proj2 X1_stripBase_withBase_roundtrip); [discriminate|].
    right. exists (js "users/7"). split; [discriminate|reflexivity].
Defined.

(** ** The scroll ledger as a map *)

Lemma ledger_get_absent : forall l k, ~ In k (map fst l) -> ledger_get l k = None.
Proof.
  induction l as [|[k1 v1] l IH]; intros k H; [reflexivity|]. simpl in *.
  rewrite jstr_eqb_neq by (intro; apply H; left; auto). apply IH. tauto.
Qed.

Lemma ledger_get_snoc : forall l k v k', ledger_get (l ++ [(k, v)]) k' =
  match ledger_get l k' with Some x => Some x | None => if jstr_eqb k' k then Some v else None end.
Proof.
  induction l as [|[k1 v1] l IH]; intros k v k'; simpl; [destruct (jstr_eqb k' k); reflexivity|].
  destruct (jstr_eqb k' k1); [reflexivity|]. apply IH.
Qed.

Lemma ledger_get_upd : forall l k v k', ledger_get (map (ledger_upd k v) l) k' =
  if jstr_eqb k' k then (if in_keys_dec k (map fst l) then Some v else None) else ledger_get l k'.
Proof.
  induction l as [|[k1 v1] l IH]; intros k v k'.
  - cbn [map ledger_get]. destruct (jstr_eqb k' k); [|reflexivity].
    destruct (in_keys_dec k (map fst (@nil (jstr * (Z * Z))))) as [[]|_]; reflexivity.
  - cbn [map]. unfold ledger_upd at 1. cbn [fst].
    destruct (in_keys_dec k (k1 :: map fst l)) as [Hi|Hi].
    + destruct (jstr_eqb k k1) eqn:E.
      * apply jstr_eqb_eq in E. subst k1. cbn [ledger_get]. rewrite IH.
        destruct (jstr_eqb k' k); reflexivity.
      * cbn [ledger_get]. rewrite IH.
        destruct (jstr_eqb k' k1) eqn:E1.
        -- apply jstr_eqb_eq in E1. subst k1. rewrite jstr_eqb_neq; [reflexivity|].
           intro H. subst. rewrite jstr_eqb_refl in E. discriminate E.
        -- destruct (jstr_eqb k' k); [|reflexivity].
           destruct (in_keys_dec k (map fst l)) as [i|n]; [reflexivity|].
           destruct Hi as [Hi|Hi]; [subst; rewrite jstr_eqb_refl in E; discriminate E|contradiction].
    + rewrite jstr_eqb_neq by (intro; subst; apply Hi; left; reflexivity).
      cbn [ledger_get]. rewrite IH.
      destruct (in_keys_dec k (map fst l)) as [i|n]; [exfalso; apply Hi; right; exact i|].
      destruct (jstr_eqb k' k1) eqn:E1; [|destruct (jstr_eqb k' k); reflexivity].
      apply jstr_eqb_eq in E1. subst k1. rewrite jstr_eqb_neq; [reflexivity|].
      intro H. subst. apply Hi. left. reflexivity.
Qed.

(** X2: recording the scroll offset [v] of a path [k] in a ledger of at
    most 50 distinct paths makes [get(k)] return [v]; every other path
    keeps its offset, except the first-inserted path when [k] is new and
    the ledger is full, which is evicted. *)
Theorem X2_ledger_record_get : forall l k v, ledger_ok l ->
  ledger_get (ledger_record l k v) k = Some v /\
  forall k', k' <> k ->
    ledger_get (ledger_record l k v) k' =
      if opt_jstr_eqb (ledger_evicted l k) k' then None else ledger_get l k'.
Proof.
  intros l k v [Hl Hn]. rewrite ledger_record_cases by assumption. unfold ledger_evicted.
  destruct (in_keys_dec k (map fst l)) as [Hi|Hi].
  - rewrite ledger_get_upd, jstr_eqb_refl. destruct (in_keys_dec k (map fst l)); [|contradiction].
    split; [reflexivity|]. intros k' Hk'. rewrite ledger_get_upd, jstr_eqb_neq by exact Hk'.
    destruct l as [|[k0 v0] l]; reflexivity.
  - destruct (Nat.ltb_spec (List.length l) 50).
    + rewrite ledger_get_snoc, ledger_get_absent, jstr_eqb_refl by exact Hi. split; [reflexivity|].
      intros k' Hk'. rewrite ledger_get_snoc, jstr_eqb_neq by exact Hk'.
      destruct l as [|[k0 v0] l]; [reflexivity|].
      destruct (Nat.ltb_spec (List.length ((k0, v0) :: l)) 50); [|lia].
      destruct (ledger_get _ k'); reflexivity.
    + destruct l as [|[k0 v0] l]; [simpl in *; lia|]. cbn [tl].
      assert (Hi' : ~ In k (map fst l)) by (intro; apply Hi; right; auto).
      rewrite ledger_get_snoc, ledger_get_absent, jstr_eqb_refl by exact Hi'. split; [reflexivity|].
      intros k' Hk'. rewrite ledger_get_snoc, (jstr_eqb_neq k' k Hk').
      destruct (Nat.ltb_spec (List.length ((k0, v0) :: l)) 50); [lia|]. cbn [opt_jstr_eqb ledger_get].
      inversion Hn as [|? ? Hk0 _]; subst.
      destruct (jstr_eqb k0 k') eqn:E.
      * apply jstr_eqb_eq in E. subst. rewrite ledger_get_absent by exact Hk0. reflexivity.
      * rewrite jstr_eqb_neq by (intro; subst; rewrite jstr_eqb_refl in E; discriminate E).
        destruct (ledger_get l k'); reflexivity.
Qed.

Lemma X2_ledger_record_get_witness :
  ledger_ok [(js "/a", (0, 10)); (js "/b", (0, 20))] /\
  ledger_get (ledger_record [(js "/a", (0, 10)); (js "/b", (0, 20))] (js "/c") (0, 30)) (js "/c")
    = Some (0, 30) /\
  ledger_get (ledger_record [(js "/a", (0, 10)); (js "/b", (0, 20))] (js "/c") (0, 30)) (js "/a")
    = Some (0, 10).
Proof.
  assert (Hok : ledger_ok [(js "/a", (0, 10)); (js "/b", (0, 20))]).
  { split; [cbn; lia|]. cbn. constructor; [|constructor; [|constructor]];
      cbn; intuition discriminate. }
  split; [exact Hok|]. split.
  - exact (proj1 (X2_ledger_record_get _ (js "/c") (0, 30) Hok)).
  - rewrite (proj2 (X2_ledger_record_get _ (js "/c") (0, 30) Hok)) by discriminate.
    vm_compute. reflexivity.
Defined.

(** ** The query object of a URL *)

Lemma fold_obj_set_get : forall (l : usp) o k, k <> PROTO ->
  obj_get (fold_left (fun o '(k, v) => obj_set o k v) l o) k =
    match rev (usp_getAll l k) with [] => obj_get o k | v :: _ => Some v end.
Proof.
  induction l as [|[a b] l IH]; intros o k Hk; [reflexivity|]. cbn [fold_left].
  rewrite IH by exact Hk. rewrite usp_getAll_cons.
  destruct (rev (usp_getAll l k)) as [|v r] eqn:E.
  - destruct (jstr_eqb k a) eqn:Ek.
    + apply jstr_eqb_eq in Ek. subst a. cbn [rev]. rewrite E. cbn.
      rewrite obj_get_set, jstr_eqb_refl by exact Hk. reflexivity.
    + rewrite E. destruct (jstr_eqb a PROTO) eqn:Ep.
      * unfold obj_set. rewrite Ep. reflexivity.
      * rewrite obj_get_set, Ek; [reflexivity|]. intro X. subst. rewrite jstr_eqb_refl in Ep. discriminate Ep.
  - destruct (jstr_eqb k a); [cbn [rev]; rewrite E|rewrite E]; reflexivity.
Qed.

Lemma fold_obj_set_proto : forall (l : usp) o, obj_get o PROTO = None ->
  obj_get (fold_left (fun o '(k, v) => obj_set o k v) l o) PROTO = None.
Proof.
  induction l as [|[a b] l IH]; intros o Ho; [exact Ho|]. cbn [fold_left]. apply IH.
  destruct (jstr_eqb a PROTO) eqn:Ep; [unfold obj_set; rewrite Ep; exact Ho|].
  rewrite obj_get_set; [|intro X; subst; rewrite jstr_eqb_refl in Ep; discriminate Ep].
  destruct (jstr_eqb PROTO a) eqn:E; [|exact Ho].
  apply jstr_eqb_eq in E. subst. rewrite jstr_eqb_refl in Ep. discriminate Ep.
Qed.

(** X4: in the query object navigate stores (line 213), each key other
    than "__proto__" holds the last value the URL's search parameters
    give it, and is absent when they give it none; "__proto__" is never
    an own key. *)
Theorem X4_query_object_last_value : forall url,
  (forall k, k <> PROTO ->
     obj_get (query_object url) k =
       match rev (usp_getAll (usp_parse (url_query url)) k) with [] => None | v :: _ => Some v end) /\
  obj_get (query_object url) PROTO = None.
Proof.
  intro url. unfold query_object. split.
  - intros k Hk. rewrite fold_obj_set_get by exact Hk. reflexivity.
  - apply fold_obj_set_proto. reflexivity.
Qed.

Lemma X4_query_object_last_value_witness :
  obj_get (query_object (js "/search?tab=a&tab=b")) (js "tab") = Some (js "b").
Proof.
  rewrite (proj1 (X4_query_object_last_value (js "/search?tab=a&tab=b")) (js "tab")) by discriminate.
  vm_compute. reflexivity.
Defined.

(** ** The current navigation is never dropped *)









(** ** navigatePath keeps the search string *)

Lemma mkSearch_idem : forall s, mkSearch (mkSearch s) = mkSearch s.
Proof.
  intros [|c s]; [reflexivity|]. cbn [mkSearch].
  destruct (c =? QMARK) eqn:E; cbn [mkSearch]; rewrite ?E, ?Z.eqb_refl; reflexivity.
Qed.

Lemma after_boot_search : forall cfg w fr r,
  csearch (current (out_world (after_boot cfg w fr r))) = csearch (current w) \/
  csearch (current (out_world (after_boot cfg w fr r))) = f_search fr.
Proof.
  intros cfg w fr r. unfold after_boot. destruct r as [ub|]; [|left; reflexivity].
  destruct (aborted_b w (f_sig fr)); [left; reflexivity|]. right. cbv zeta. unfold store_write.
  crush_matches; reflexivity.
Qed.

Lemma after_boot_nowait : forall cfg w fr r w' p, after_boot cfg w fr r <> OWait w' p.
Proof.
  intros cfg w fr r w' p. unfold after_boot. destruct r; [|discriminate].
  destruct (aborted_b w (f_sig fr)); [discriminate|]. cbv zeta. crush_matches; discriminate.
Qed.

Lemma after_unboot_search : forall cfg w fr bb,
  (csearch (current (out_world (after_unboot cfg w fr bb))) = csearch (current w) \/
   csearch (current (out_world (after_unboot cfg w fr bb))) = f_search fr) /\
  (forall w' p, after_unboot cfg w fr bb = OWait w' p -> p = AtBoot fr).
Proof.
  intros cfg w fr bb. unfold after_unboot. destruct (f_boot fr) as [b|].
  - destruct bb; (split; [left; reflexivity|]); intros w' p E; [discriminate E|].
    injection E as _ <-. reflexivity.
  - split; [exact (after_boot_search cfg (set_rootClears (S (rootClears w)) w) fr (BResolved None))|].
    intros w' p E. exfalso. exact (after_boot_nowait _ _ _ _ _ _ E).
Qed.

Lemma nav_tail_search : forall cfg w3 fr uc bc,
  let o := match unboot (current w3) with
           | Some u =>
               let w4 := set_unbootCalls (u :: unbootCalls w3) w3 in
               match uc with
               | UThrowsSync => after_unboot cfg w4 fr bc
               | UReturns => OWait w4 (AtUnboot fr)
               end
           | None => after_unboot cfg w3 fr bc
           end in
  (csearch (current (out_world o)) = csearch (current w3) \/
   csearch (current (out_world o)) = f_search fr) /\
  (forall w' p, o = OWait w' p -> frame_of p = fr).
Proof.
  intros cfg w3 fr uc bc o. subst o. destruct (unboot (current w3)) as [u|].
  - cbv zeta. destruct uc.
    + destruct (after_unboot_search cfg (set_unbootCalls (u :: unbootCalls w3) w3) fr bc) as [S1 S2].
      split; [exact S1|]. intros w' p E. rewrite (S2 w' p E). reflexivity.
    + split; [left; reflexivity|]. intros w' p E. injection E as _ <-. reflexivity.
  - destruct (after_unboot_search cfg w3 fr bc) as [S1 S2].
    split; [exact S1|]. intros w' p E. rewrite (S2 w' p E). reflexivity.
Qed.

Lemma nav_begin_search : forall cfg w pathname search rep rs uc bc,
  let o := nav_begin cfg w pathname search rep rs uc bc in
  (csearch (current (out_world o)) = csearch (current w) \/
   csearch (current (out_world o)) = mkSearch search) /\
  (forall w' p, o = OWait w' p -> f_search (frame_of p) = mkSearch search).
Proof.
  intros cfg w pathname search rep rs uc bc o. subst o. unfold nav_begin.
  destruct (negb (rootPresent w)); [split; [left; reflexivity|discriminate]|].
  destruct (resolve cfg _) as [[res|]|e]; [|split; [left; reflexivity|discriminate]..].
  cbv zeta. destruct (_ && _); [split; [left; reflexivity|discriminate]|].
  match goal with |- context [match unboot (current ?x) with _ => _ end] =>
    assert (Hx : csearch (current x) = csearch (current w))
      by (destruct (store_write_fields cfg (with_transitioning true)
           (set_htmlTransitioning (Some (js "on")) (set_nextCtl (S (nextCtl w))
             (set_navController (Some (nextCtl w))
               match navController w with Some old => set_aborted (old :: aborted w) w | None => w end))))
           as [_ [_ [_ E4]]];
          crush_matches; cbn [current set_scrollPositions]; rewrite E4; reflexivity);
    match goal with |- context [after_unboot cfg _ ?fr0 _] =>
      destruct (nav_tail_search cfg x fr0 uc bc) as [T1 T2] end end.
  rewrite Hx in T1. split; [exact T1|]. intros w' p E. rewrite (T2 w' p E). reflexivity.
Qed.

Lemma search_inv_steps : forall cfg c1 c2, steps cfg c1 c2 -> search_inv c1 -> search_inv c2.
Proof.
  intros cfg c1 c2 Hs. induction Hs as [c|c1 c2 c3 Hs IH Hst]; intro H0; [exact H0|].
  specialize (IH H0). inversion Hst; subst; destruct IH as [S1 S2]; cbn [fst snd] in S1, S2.
  - destruct (nav_begin_search cfg w pathname search rep rs uc bc) as [T1 T2].
    destruct (nav_begin cfg w pathname search rep rs uc bc) as [w'|w'|w' p]; cbn [out_world] in T1;
      unfold search_inv; cbn [out_conf fst snd];
      (split; [destruct T1 as [T1|T1]; rewrite T1; [exact S1|apply mkSearch_idem]|]); try exact S2.
    constructor; [|exact S2]. rewrite (T2 w' p eq_refl). apply mkSearch_idem.
  - rewrite Forall_app in S2. destruct S2 as [S21 S22]. inversion S22 as [|? ? Sp S23]; subst.
    assert (Hrest : Forall (fun pd => mkSearch (f_search (frame_of pd)) = f_search (frame_of pd)) (ps1 ++ ps2))
      by (apply Forall_app; split; assumption).
    assert (G : forall o fr, frame_of p = fr ->
      (csearch (current (out_world o)) = csearch (current w) \/ csearch (current (out_world o)) = f_search fr) ->
      (forall w' q, o = OWait w' q -> frame_of q = fr) -> search_inv (out_conf o (ps1 ++ ps2))).
    { intros o fr Hfr T1 T2. subst fr.
      destruct o as [w'|w'|w' q]; cbn [out_world] in T1; unfold search_inv; cbn [out_conf fst snd];
        (split; [destruct T1 as [T1|T1]; rewrite T1; assumption|]); try exact Hrest.
      constructor; [|exact Hrest]. rewrite (T2 w' q eq_refl). exact Sp. }
    destruct p as [fr|fr]; cbn [resume].
    + destruct (after_unboot_search cfg w fr bc) as [T1 T2]. apply (G _ fr eq_refl T1).
      intros w' q E. rewrite (T2 w' q E). reflexivity.
    + apply (G _ fr eq_refl (after_boot_search cfg w fr r)).
      intros w' q E. exfalso. exact (after_boot_nowait _ _ _ _ _ _ E).
  - unfold search_inv. cbn [fst snd]. unfold stop. destruct (unboot _); cbn; split; assumption.
  - unfold search_inv. cbn [fst snd]. destruct e; cbn; split; assumption.
Qed.

Lemma reachable_search_inv : forall cfg w ps, reachable cfg (w, ps) ->
  mkSearch (csearch (current w)) = csearch (current w).
Proof.
  intros cfg w ps [w0 [[Hc _] Hs]]. apply (search_inv_steps cfg (w0, []) (w, ps) Hs).
  unfold search_inv. cbn [fst snd]. rewrite Hc. split; [reflexivity|constructor].
Qed.

(** X6: in every reachable state, navigatePath keeps the current search
    string: whatever the call does, the search of NavigationState is the
    same afterwards, and a navigation it leaves suspended carries that
    search string, so that it commits it when it completes. *)
Theorem X6_navigatePath_keeps_search : forall cfg w ps path rep uc bc,
  reachable cfg (w, ps) ->
  csearch (current (out_world (navigatePath cfg w path rep uc bc))) = csearch (current w) /\
  (forall w' p, navigatePath cfg w path rep uc bc = OWait w' p -> f_search (frame_of p) = csearch (current w)).
Proof.
  intros cfg w ps path rep uc bc Hr. pose proof (reachable_search_inv cfg w ps Hr) as Hs.
  unfold navigatePath.
  destruct (nav_begin_search cfg w (normalizePath (Some (stripBase (basePath cfg) path)))
    (csearch (current w)) (match rep with Some b => b | None => true end) false uc bc) as [T1 T2].
  rewrite Hs in T1, T2. split; [destruct T1; assumption|exact T2].
Qed.

Lemma X6_navigatePath_keeps_search_witness :
  csearch (current (out_world (navigatePath demo_cfg search_w2 (js "/users") None UReturns BReturns)))
    = js "?tab=posts".
Proof.
  assert (Hr : reachable demo_cfg (search_w2, [])).
  { exists world0. split; [exact initial_world0|].
    apply steps_step with (c2 := (search_w1, [])).
    - eapply steps_step; [apply steps_refl|].
      replace (search_w1, @nil Pending) with
        (out_conf (nav_begin demo_cfg world0 (js "/search") [] false false UReturns BReturns) [])
        by (vm_compute; reflexivity).
      apply StepNavigate.
    - replace (search_w2, @nil Pending) with
        (out_conf (nav_begin demo_cfg search_w1 (js "/search") (js "?tab=posts") true false UReturns BReturns) [])
        by (vm_compute; reflexivity).
      apply StepNavigate. }
  rewrite (proj1 (X6_navigatePath_keeps_search demo_cfg search_w2 [] (js "/users") None UReturns BReturns Hr)).
  vm_compute. reflexivity.
Defined.

(** ** URLSearchParams: serializing then parsing gives the list back *)

Ltac zdecide := Z.div_mod_to_equations; lia.

Ltac zcond :=
  repeat match goal with
  | |- context [?a <? ?b] =>
      first [rewrite (proj2 (Z.ltb_lt a b)) by zdecide | rewrite (proj2 (Z.ltb_ge a b)) by zdecide]
  | |- context [?a <=? ?b] =>
      first [rewrite (proj2 (Z.leb_le a b)) by zdecide | rewrite (proj2 (Z.leb_gt a b)) by zdecide]
  | |- context [?a =? ?b] =>
      first [rewrite (proj2 (Z.eqb_eq a b)) by zdecide | rewrite (proj2 (Z.eqb_neq a b)) by zdecide
            | destruct (Z.eqb_spec a b)]
  end.

Lemma scalar_spec : forall c, scalar c = true <-> 0 <= c < 1114112 /\ ~ (55296 <= c <= 57343).
Proof.
  intro c. unfold scalar. rewrite !andb_true_iff, negb_true_iff, andb_false_iff, Z.leb_le, Z.ltb_lt,
    !Z.leb_gt. lia.
Qed.

Lemma u8dec_cp : forall c rest, scalar c = true ->
  u8dec (utf8_encode_cp c ++ rest) None = c :: u8dec rest None.
Proof.
  intros c rest Hs. apply scalar_spec in Hs. unfold utf8_encode_cp.
  destruct (Z.ltb_spec c 128); [|destruct (Z.ltb_spec c 2048); [|destruct (Z.ltb_spec c 65536)]];
    zcond; do 6 (cbn [app u8dec u_lo u_hi u_cp u_need andb]; try unfold u8_start; zcond);
    cbn [app]; f_equal; zdecide.
Qed.

Lemma u8dec_utf8 : forall s, Forall (fun c => scalar c = true) s -> u8dec (utf8_encode s) None = s.
Proof.
  induction s as [|c s IH]; intro H; [reflexivity|]. inversion H; subst.
  unfold utf8_encode. cbn [flat_map]. rewrite u8dec_cp by assumption. f_equal. apply IH. assumption.
Qed.

Lemma utf8_cp_bytes : forall c, scalar c = true -> Forall (fun b => 0 <= b < 256) (utf8_encode_cp c).
Proof.
  intros c Hs. apply scalar_spec in Hs. unfold utf8_encode_cp.
  destruct (Z.ltb_spec c 128); [|destruct (Z.ltb_spec c 2048); [|destruct (Z.ltb_spec c 65536)]];
    repeat constructor; zdecide.
Qed.

Lemma utf8_bytes : forall s, Forall (fun c => scalar c = true) s ->
  Forall (fun b => 0 <= b < 256) (utf8_encode s).
Proof.
  induction s as [|c s IH]; intro H; [constructor|]. inversion H; subst.
  unfold utf8_encode. cbn [flat_map]. apply Forall_app. split; [apply utf8_cp_bytes; assumption|].
  apply IH. assumption.
Qed.

Lemma utf8_ascii : forall t, Forall (fun x => 0 <= x < 128) t -> utf8_encode t = t.
Proof.
  induction t as [|x t IH]; intro H; [reflexivity|]. inversion H; subst.
  unfold utf8_encode. cbn [flat_map]. unfold utf8_encode_cp at 1. zcond. cbn [app].
  f_equal. apply IH. assumption.
Qed.

Lemma hexVal_hexDigitU : forall n, 0 <= n < 16 -> hexVal (hexDigitU n) = Some n.
Proof.
  intros n Hn. unfold hexDigitU. destruct (Z.ltb_spec n 10); unfold hexVal; zcond; cbn [andb]; f_equal; lia.
Qed.

Lemma hexDigitU_range : forall n, 0 <= n < 16 ->
  (48 <= hexDigitU n <= 57 \/ 65 <= hexDigitU n <= 70).
Proof. intros n Hn. unfold hexDigitU. destruct (Z.ltb_spec n 10); lia. Qed.

Lemma form_safe_spec : forall b, form_safe b = true ->
  b = 42 \/ b = 45 \/ b = 46 \/ 48 <= b <= 57 \/ 65 <= b <= 90 \/ b = 95 \/ 97 <= b <= 122.
Proof.
  intros b H. unfold form_safe in H.
  repeat rewrite orb_true_iff in H. repeat rewrite andb_true_iff in H.
  rewrite ?Z.eqb_eq, ?Z.leb_le in H. lia.
Qed.

Lemma form_byte_cases : forall b, form_byte b =
  if b =? SPACE then [PLUS] else if form_safe b then [b]
  else [PERCENT; hexDigitU (b / 16); hexDigitU (b mod 16)].
Proof. reflexivity. Qed.

Lemma form_byte_chars : forall b, 0 <= b < 256 ->
  Forall (fun x => 0 <= x < 128 /\ x <> AMP /\ x <> EQ) (form_byte b).
Proof.
  intros b Hb. rewrite form_byte_cases. unfold AMP, EQ, PLUS, SPACE, PERCENT.
  destruct (Z.eqb_spec b 32); [repeat constructor; lia|].
  destruct (form_safe b) eqn:E; [apply form_safe_spec in E; repeat constructor; lia|].
  assert (H1 := hexDigitU_range (b / 16) ltac:(zdecide)).
  assert (H2 := hexDigitU_range (b mod 16) ltac:(zdecide)).
  repeat constructor; lia.
Qed.

Lemma form_byte_dec : forall b r, 0 <= b < 256 ->
  pct_decode (plus_to_space (form_byte b) ++ r) = b :: pct_decode r.
Proof.
  intros b r Hb. rewrite form_byte_cases. unfold plus_to_space.
  destruct (Z.eqb_spec b SPACE); [subst; reflexivity|].
  destruct (form_safe b) eqn:E.
  - apply form_safe_spec in E. cbn [map app]. unfold PLUS, SPACE, PERCENT in *.
    zcond. cbn [pct_decode]. unfold PERCENT. zcond. reflexivity.
  - assert (H1 := hexDigitU_range (b / 16) ltac:(zdecide)).
    assert (H2 := hexDigitU_range (b mod 16) ltac:(zdecide)).
    cbn [map app]. unfold PLUS, SPACE, PERCENT in *. zcond. cbn [pct_decode]. unfold PERCENT.
    zcond. rewrite !hexVal_hexDigitU by zdecide. f_equal. zdecide.
Qed.

Lemma form_decode_bytes : forall bs, Forall (fun b => 0 <= b < 256) bs ->
  pct_decode (plus_to_space (flat_map form_byte bs)) = bs.
Proof.
  induction bs as [|b bs IH]; intro H; [reflexivity|]. inversion H; subst.
  cbn [flat_map]. unfold plus_to_space at 1. rewrite map_app.
  rewrite form_byte_dec by assumption. f_equal. apply IH. assumption.
Qed.

Lemma form_encode_decode : forall s, Forall (fun c => scalar c = true) s ->
  u8dec (pct_decode (plus_to_space (form_encode s))) None = s.
Proof.
  intros s H. unfold form_encode. rewrite form_decode_bytes by (apply utf8_bytes; exact H).
  apply u8dec_utf8. exact H.
Qed.

Lemma form_encode_chars : forall s, Forall (fun c => scalar c = true) s ->
  Forall (fun x => 0 <= x < 128 /\ x <> AMP /\ x <> EQ) (form_encode s).
Proof.
  intros s H. unfold form_encode. pose proof (utf8_bytes s H) as Hb.
  induction (utf8_encode s) as [|b bs IH]; [constructor|]. inversion Hb; subst.
  cbn [flat_map]. apply Forall_app. split; [apply form_byte_chars; assumption|]. apply IH. assumption.
Qed.

Lemma split_on_ne : forall sep s, exists x xs, split_on sep s = x :: xs.
Proof.
  intros sep s. induction s as [|c s IH]; [eexists; eexists; reflexivity|]. cbn [split_on].
  destruct (c =? sep); [eexists; eexists; reflexivity|]. destruct IH as [x [xs ->]].
  eexists; eexists; reflexivity.
Qed.

Lemma split_on_prefix : forall sep a rest x xs, Forall (fun c => c <> sep) a ->
  split_on sep rest = x :: xs -> split_on sep (a ++ rest) = (a ++ x) :: xs.
Proof.
  intros sep a. induction a as [|c a IH]; intros rest x xs Ha Hr; [exact Hr|]. inversion Ha; subst.
  cbn [app split_on]. rewrite (proj2 (Z.eqb_neq c sep)) by assumption. rewrite (IH rest x xs) by assumption.
  reflexivity.
Qed.

Lemma break_at_prefix : forall sep a b, Forall (fun c => c <> sep) a ->
  break_at sep (a ++ sep :: b) = (a, Some b).
Proof.
  intros sep a b. induction a as [|c a IH]; intro Ha; cbn [app break_at]; [rewrite Z.eqb_refl; reflexivity|].
  inversion Ha; subst. rewrite (proj2 (Z.eqb_neq c sep)) by assumption. rewrite IH by assumption. reflexivity.
Qed.

Lemma usp_serialize_cons : forall p l, usp_serialize (p :: l) =
  match l with [] => usp_chunk p | _ => usp_chunk p ++ AMP :: usp_serialize l end.
Proof.
  intros [n v] l. destruct l as [|q l]; [reflexivity|]. cbn [usp_serialize]. unfold usp_chunk. cbn [fst snd].
  rewrite <- app_assoc. reflexivity.
Qed.

Lemma usp_chunk_chars : forall p, Forall (fun c => scalar c = true) (fst p ++ snd p) ->
  Forall (fun x => 0 <= x < 128 /\ x <> AMP) (usp_chunk p).
Proof.
  intros p H. apply Forall_app in H as [H1 H2]. unfold usp_chunk. apply Forall_app. split.
  - eapply Forall_impl; [|apply form_encode_chars; exact H1]. intros x [? [? _]]. split; assumption.
  - constructor; [unfold EQ, AMP; lia|].
    eapply Forall_impl; [|apply form_encode_chars; exact H2]. intros x [? [? _]]. split; assumption.
Qed.

Lemma usp_serialize_chars : forall l, usp_scalar l ->
  Forall (fun x => 0 <= x < 128) (usp_serialize l).
Proof.
  induction l as [|p l IH]; intro H; [constructor|]. inversion H; subst. rewrite usp_serialize_cons.
  assert (Hc := usp_chunk_chars p ltac:(assumption)).
  assert (Hc' : Forall (fun x => 0 <= x < 128) (usp_chunk p)) by (eapply Forall_impl; [|exact Hc]; intros x Hx; exact (proj1 Hx)).
  destruct l as [|q l]; [exact Hc'|]. apply Forall_app. split; [exact Hc'|].
  constructor; [unfold AMP; lia|]. apply IH. assumption.
Qed.

Lemma usp_split : forall l, l <> [] -> usp_scalar l -> split_on AMP (usp_serialize l) = map usp_chunk l.
Proof.
  induction l as [|p l IH]; intros Hne H; [contradiction|]. inversion H; subst. rewrite usp_serialize_cons.
  assert (Hc : Forall (fun x => x <> AMP) (usp_chunk p))
    by (eapply Forall_impl; [|apply usp_chunk_chars; assumption]; intros x Hx; exact (proj2 Hx)).
  destruct l as [|q l].
  - rewrite <- (app_nil_r (usp_chunk p)). rewrite (split_on_prefix AMP (usp_chunk p) [] [] []) by (assumption || reflexivity).
    rewrite app_nil_r. reflexivity.
  - rewrite (split_on_prefix AMP (usp_chunk p) (AMP :: usp_serialize (q :: l)) []
      (split_on AMP (usp_serialize (q :: l)))) by (try assumption; cbn [split_on]; rewrite Z.eqb_refl; reflexivity).
    rewrite app_nil_r, IH by (discriminate || assumption). reflexivity.
Qed.

Lemma usp_parse_serialize : forall l : usp,
  Forall (fun p => Forall (fun c => scalar c = true) (fst p ++ snd p)) l ->
  usp_parse (usp_serialize l) = l.
Proof.
  intros l H. change (usp_scalar l) in H. unfold usp_parse.
  rewrite utf8_ascii by (apply usp_serialize_chars; exact H).
  destruct l as [|p0 l0]; [reflexivity|]. rewrite usp_split by (discriminate || exact H).
  generalize (p0 :: l0) H. clear. intros l H.
  induction l as [|p l IH]; [reflexivity|]. inversion H as [|? ? Hp Hl]; subst.
  cbn [map flat_map].
  match goal with |- (match ?s with [] => _ | _ :: _ => _ end) ++ _ = _ => destruct s as [|c t] eqn:Es end.
  - unfold usp_chunk in Es. apply app_eq_nil in Es as [_ Es]. discriminate Es.
  - rewrite <- Es. unfold usp_chunk. apply Forall_app in Hp as [Hn Hv].
    rewrite break_at_prefix.
    2:{ eapply Forall_impl; [|apply form_encode_chars; exact Hn]. intros x Hx. exact (proj2 (proj2 Hx)). }
    rewrite !form_encode_decode by assumption. destruct p as [n v]. cbn [app]. f_equal. apply IH. exact Hl.
Qed.

(** X7: for name-value pairs made of Unicode scalar values, the string
    [params.toString()] gives (line 265) is parsed back by
    [new URLSearchParams] (line 259) into the same pairs, in the same
    order, names and values with '=', '&', '+', '%', spaces and non-ASCII
    characters included. *)
Theorem X7_usp_serialize_parse_roundtrip : forall l : usp,
  Forall (fun p => Forall (fun c => scalar c = true) (fst p ++ snd p)) l ->
  usp_parse (usp_serialize l) = l.
Proof. exact usp_parse_serialize. Qed.

Lemma X7_usp_serialize_parse_roundtrip_witness :
  usp_parse (usp_serialize [(js "q", js "a&b=c d+%"); (js "tab", [233; 8364; 128512])]) =
    [(js "q", js "a&b=c d+%"); (js "tab", [233; 8364; 128512])].
Proof.
  apply (X7_usp_serialize_parse_roundtrip [(js "q", js "a&b=c d+%"); (js "tab", [233; 8364; 128512])]).
  repeat (apply Forall_cons || apply Forall_nil); vm_compute; reflexivity.
Defined.

(** ** decodeURIComponent *)

Lemma dec_plain : forall s, ~ In PERCENT s -> dec s DNormal = Some s.
Proof.
  induction s as [|c s IH]; intro H; [reflexivity|]. cbn [dec].
  rewrite (proj2 (Z.eqb_neq c PERCENT)) by (intro E; apply H; left; auto).
  rewrite IH by (intro X; apply H; right; exact X). reflexivity.
Qed.

Lemma div16_mod16 : forall b, b / 16 * 16 + b mod 16 = b.
Proof. intro b. zdecide. Qed.

Lemma dec_cp : forall c rest, scalar c = true ->
  dec (flat_map pct_byte (utf8_encode_cp c) ++ rest) DNormal = option_map (cons c) (dec rest DNormal).
Proof.
  intros c rest Hs. apply scalar_spec in Hs. unfold utf8_encode_cp.
  destruct (Z.ltb_spec c 128); [|destruct (Z.ltb_spec c 2048); [|destruct (Z.ltb_spec c 65536)]];
    zcond; cbn [flat_map pct_byte app];
    do 12 (cbn [dec sq_cp sq_left sq_min andb option_map]; rewrite ?hexVal_hexDigitU by zdecide;
           rewrite ?div16_mod16; try unfold validScalar; zcond; cbn [andb negb]);
    try (match goal with |- context [55296 <=? ?e] => replace e with c by zdecide end;
         destruct (Z.leb_spec 55296 c); zcond; cbn [andb negb]);
    f_equal; f_equal; zdecide.
Qed.

(** X8: decodeURIComponent, with which resolve decodes route parameters
    (line 103), returns a string without '%' unchanged, and decodes the
    percent-encoding of the UTF-8 bytes of any string of Unicode scalar
    values back to that string. *)
Theorem X8_decodeURIComponent_inverts_encoding :
  (forall s, ~ In PERCENT s -> decodeURIComponent s = Some s) /\
  (forall s, Forall (fun c => scalar c = true) s -> decodeURIComponent (pct_encode s) = Some s).
Proof.
  split; [exact dec_plain|]. unfold decodeURIComponent, pct_encode.
  induction s as [|c s IH]; intro H; [reflexivity|]. inversion H; subst.
  unfold utf8_encode. cbn [flat_map]. rewrite flat_map_app, dec_cp by assumption.
  fold (utf8_encode s). rewrite IH by assumption. reflexivity.
Qed.

Lemma X8_decodeURIComponent_inverts_encoding_witness :
  decodeURIComponent (js "hello") = Some (js "hello") /\
  decodeURIComponent (pct_encode [106; 233; 8364; 128512]) = Some [106; 233; 8364; 128512].
Proof.
  split.
  - apply (proj1 X8_decodeURIComponent_inverts_encoding). vm_compute. intuition discriminate.
  - apply (proj2 X8_decodeURIComponent_inverts_encoding).
    repeat (apply Forall_cons || apply Forall_nil); vm_compute; reflexivity.
Defined.

(** ** stop and the ui.route.go subscription *)

Lemma after_boot_subs : forall cfg w fr r, subs (out_world (after_boot cfg w fr r)) = subs w.
Proof.
  intros cfg w fr r. unfold after_boot. destruct r as [ub|]; [|reflexivity].
  destruct (aborted_b w (f_sig fr)); [reflexivity|]. cbv zeta. unfold store_write. crush_matches; reflexivity.
Qed.

Lemma after_unboot_subs : forall cfg w fr bb, subs (out_world (after_unboot cfg w fr bb)) = subs w.
Proof.
  intros cfg w fr bb. unfold after_unboot. destruct (f_boot fr); [destruct bb; reflexivity|].
  rewrite after_boot_subs. reflexivity.
Qed.

Lemma nav_begin_subs : forall cfg w pathname search rep rs uc bc,
  subs (out_world (nav_begin cfg w pathname search rep rs uc bc)) = subs w.
Proof.
  intros cfg w pathname search rep rs uc bc. unfold nav_begin.
  destruct (negb (rootPresent w)); [reflexivity|].
  destruct (resolve cfg _) as [[res|]|e]; [|reflexivity|reflexivity].
  cbv zeta. destruct (_ && _); [reflexivity|].
  match goal with |- context [match unboot (current ?x) with _ => _ end] =>
    assert (Hx : subs x = subs w) by (unfold store_write; crush_matches; reflexivity);
    destruct (unboot (current x)); [destruct uc|]; cbn [out_world]; rewrite ?after_unboot_subs;
    exact Hx end.
Qed.

Lemma steps_gs : forall cfg c1 c2, steps cfg c1 c2 -> goSubscribed (fst c1) = false ->
  goSubscribed (fst c2) = false.
Proof.
  intros cfg c1 c2 Hs. induction Hs as [c|c1 c2 c3 Hs IH Hst]; intro H0; [exact H0|].
  specialize (IH H0). inversion Hst; subst; cbn [fst] in *; rewrite ?out_conf_fst.
  - pose proof (nav_begin_subs cfg w pathname search rep rs uc bc) as E. unfold subs in E.
    injection E as E _. rewrite E. exact IH.
  - assert (E : subs (out_world (resume cfg w p bc r)) = subs w)
      by (destruct p; cbn [resume]; [apply after_unboot_subs|apply after_boot_subs]).
    unfold subs in E. injection E as E _. rewrite E. exact IH.
  - unfold stop. destruct (unboot _); reflexivity.
  - destruct e; exact IH.
Qed.

(** X9: stop() unsubscribes from ui.route.go for good: in every state
    reached after it, by any navigations, settlements, further stop calls
    or page events, writing ui.route.go navigates nowhere and changes
    nothing, and a later start() re-adds the click and popstate listeners
    but does not subscribe again. *)
Theorem X9_stop_unsubscribes_go_for_good : forall cfg w ps c,
  steps cfg (stop w, ps) c ->
  goSubscribed (fst c) = false /\
  (forall v uc bc, store_set_go cfg (fst c) v uc bc = ODone (fst c)) /\
  (forall uc bc, goSubscribed (out_world (start cfg (fst c) uc bc)) = false /\
                 listening (out_world (start cfg (fst c) uc bc)) = true).
Proof.
  intros cfg w ps c Hs.
  assert (H : goSubscribed (fst c) = false)
    by (apply (steps_gs cfg _ _ Hs); unfold stop; cbn [fst]; destruct (unboot _); reflexivity).
  split; [exact H|]. split; [intros v uc bc; unfold store_set_go; rewrite H; reflexivity|].
  intros uc bc. unfold start. cbv zeta.
  match goal with |- context [nav_begin cfg ?x ?p ?q true true uc bc] =>
    pose proof (nav_begin_subs cfg x p q true true uc bc) as E end.
  pose proof (f_equal fst E) as E1. pose proof (f_equal snd E) as E2. unfold subs in E1, E2.
  cbn [fst snd] in E1, E2. rewrite E1, E2. split; [exact H|reflexivity].
Qed.

Lemma X9_stop_unsubscribes_go_for_good_witness :
  store_set_go demo_cfg (stop demo_w1) (GoString (js "/users")) UReturns BReturns = ODone (stop demo_w1).
Proof.
  exact (proj1 (proj2 (X9_stop_unsubscribes_go_for_good demo_cfg demo_w1 [] (stop demo_w1, [])
    (steps_refl _ _))) (GoString (js "/users")) UReturns BReturns).
Defined.

(** ** What a compiled route matches *)

Lemma identChar_not_slash : forall c, isIdentChar c = true -> (c =? SLASH) = false.
Proof.
  intros c H. destruct (Z.eqb_spec c SLASH) as [->|]; [|reflexivity]. vm_compute in H. discriminate H.
Qed.

Lemma count_slash_cons : forall c t, count_slash (c :: t) = ((if Z.eqb c SLASH then 1 else 0) + count_slash t)%nat.
Proof. intros c t. unfold count_slash. cbn [filter]. destruct (c =? SLASH); reflexivity. Qed.

Lemma count_slash_app : forall a b, count_slash (a ++ b) = (count_slash a + count_slash b)%nat.
Proof. intros a b. unfold count_slash. rewrite filter_app, length_app. reflexivity. Qed.

Lemma count_slash_none : forall seg, Forall (fun c => c <> SLASH) seg -> count_slash seg = 0%nat.
Proof.
  induction seg as [|c seg IH]; intro H; [reflexivity|]. inversion H; subst.
  rewrite count_slash_cons, (proj2 (Z.eqb_neq c SLASH)) by assumption. apply IH. assumption.
Qed.

Lemma spec_nodes_slashes : forall t b, slash_nodes (spec_nodes_go t b) = count_slash t.
Proof.
  induction t as [|c t IH]; intro b; [reflexivity|]. cbn [spec_nodes_go]. rewrite count_slash_cons.
  destruct (b && isIdentChar c) eqn:E1.
  - apply andb_true_iff in E1 as [_ E1]. rewrite identChar_not_slash by exact E1. apply IH.
  - destruct ((c =? COLON) && startsIdent t) eqn:E2.
    + apply andb_true_iff in E2 as [E2 _]. apply Z.eqb_eq in E2. subst c.
      unfold slash_nodes in *. cbn [filter]. rewrite IH. reflexivity.
    + unfold slash_nodes in *. cbn [filter]. destruct (c =? SLASH); cbn [List.length]; rewrite <- (IH false);
        reflexivity.
Qed.

Lemma full_match_slashes : forall ns s caps, full_match ns s caps ->
  count_slash s = slash_nodes ns /\ Forall (fun seg => seg <> [] /\ ~ In SLASH seg) caps.
Proof.
  intros ns s caps H. induction H as [|c ns s caps H [IH1 IH2]|ns seg s caps Hne Hseg H [IH1 IH2]].
  - split; [reflexivity|constructor].
  - split; [|exact IH2]. rewrite count_slash_cons. unfold slash_nodes in *. cbn [filter].
    destruct (c =? SLASH); cbn [List.length]; rewrite <- IH1; reflexivity.
  - split.
    + rewrite count_slash_app, count_slash_none by exact Hseg. exact IH1.
    + constructor; [|exact IH2]. split; [exact Hne|]. intro X. rewrite Forall_forall in Hseg.
      exact (Hseg _ X eq_refl).
Qed.

(** X10: a path that a route's compiled regex matches has exactly as many
    '/' as the route's pattern, and every captured parameter value is a
    non-empty run of characters without '/'. *)
Theorem X10_route_match_slashes : forall r p caps,
  exec (regexOf r) p = Some caps ->
  count_slash p = count_slash (r_path r) /\ Forall (fun seg => seg <> [] /\ ~ In SLASH seg) caps.
Proof.
  intros r p caps H. rewrite regexOf_spec in H. apply exec_compiled_sound in H.
  destruct (full_match_slashes _ _ _ H) as [H1 H2]. split; [|exact H2].
  rewrite H1. apply spec_nodes_slashes.
Qed.

Lemma X10_route_match_slashes_witness :
  count_slash (js "/users/7/posts/abc") = count_slash (js "/users/:id/posts/:postId").
Proof.
  exact (proj1 (X10_route_match_slashes
    {| r_path := js "/users/:id/posts/:postId"; r_view := js "post"; r_boot := Some 1%nat |}
    (js "/users/7/posts/abc") [js "7"; js "abc"] ltac:(vm_compute; reflexivity))).
Defined.

(** ** navigateQuery: the committed search string is the merged parameters *)

Lemma prefixed_strip : forall s : jstr,
  strip_q (match s with [] => [] | _ => QMARK :: s end) = s /\
  mkSearch (match s with [] => [] | _ => QMARK :: s end) = (match s with [] => [] | _ => QMARK :: s end).
Proof.
  intros [|c s]; [split; reflexivity|]. cbn [strip_q mkSearch]. rewrite Z.eqb_refl. split; reflexivity.
Qed.

(** X11: navigateQuery navigates with the search string [prefixed]: the
    serialization of the merged parameters, with a '?' in front when it is
    not empty.  After the call NavigationState's search is unchanged (the
    call returned early, failed or is suspended) or is exactly [prefixed];
    a navigation the call leaves suspended carries exactly [prefixed]; and
    when the merged parameters are made of Unicode scalar values, [prefixed]
    without its '?' parses back to exactly those parameters. *)
Theorem X11_navigateQuery_search_reparses : forall cfg w patch rep uc bc,
  let s := usp_serialize (merged_query w patch) in
  let prefixed := match s with [] => [] | _ => QMARK :: s end in
  let o := navigateQuery cfg w patch rep uc bc in
  (csearch (current (out_world o)) = csearch (current w) \/
   csearch (current (out_world o)) = prefixed) /\
  (forall w' p, o = OWait w' p -> f_search (frame_of p) = prefixed) /\
  (usp_scalar (merged_query w patch) -> usp_parse (strip_q prefixed) = merged_query w patch).
Proof.
  intros cfg w patch rep uc bc s prefixed o.
  assert (Hm : mkSearch prefixed = prefixed) by exact (proj2 (prefixed_strip s)).
  split; [|split].
  - subst o. unfold navigateQuery, navigateQuery_args. cbv zeta. fold s. fold prefixed.
    match goal with |- context [nav_begin cfg w ?pa prefixed ?re false uc bc] =>
      destruct (nav_begin_search cfg w pa prefixed re false uc bc) as [T1 _] end.
    rewrite Hm in T1. exact T1.
  - intros w' p E. subst o. unfold navigateQuery, navigateQuery_args in E. cbv zeta in E.
    fold s in E. fold prefixed in E.
    match type of E with nav_begin cfg w ?pa prefixed ?re false uc bc = _ =>
      destruct (nav_begin_search cfg w pa prefixed re false uc bc) as [_ T2] end.
    rewrite (T2 w' p E). exact Hm.
  - intro H. assert (Hs : strip_q prefixed = s) by exact (proj1 (prefixed_strip s)).
    rewrite Hs. subst s. apply usp_parse_serialize. exact H.
Qed.

Lemma X11_navigateQuery_search_reparses_witness :
  csearch (current search_w2) = js "?tab=posts" /\
  usp_parse (strip_q (csearch (current search_w2))) = [(js "tab", js "posts")].
Proof.
  destruct (X11_navigateQuery_search_reparses demo_cfg search_w1 [(js "tab", PStr (js "posts"))] None
    UReturns BReturns) as [[E|E] [_ P]].
  - exfalso. revert E. vm_compute. discriminate.
  - unfold search_w2. rewrite E.
    assert (U : usp_scalar (merged_query search_w1 [(js "tab", PStr (js "posts"))]))
      by (unfold usp_scalar; repeat (apply Forall_cons || apply Forall_nil); vm_compute; reflexivity).
    split; [vm_compute; reflexivity|]. rewrite (P U). vm_compute. reflexivity.
Defined.

(** ** normalizePath: the shape of its result *)

(** X12: normalizePath always returns a string that starts with '/'; the
    result ends with '/' only when it is "/" itself or when the input (with
    its leading '/' added) ends with "//"; and it is "/index.html" only for
    the input "/index.html/" (or "index.html/"). *)
Theorem X12_normalizePath_shape : forall p : option jstr,
  (exists r, normalizePath p = SLASH :: r) /\
  (endsWithChar (normalizePath p) SLASH = true ->
     normalizePath p = [SLASH] \/ ends2slash (lead_slash p) = true) /\
  (normalizePath p = INDEX_HTML -> lead_slash p = js "/index.html/").
Proof.
  intro p. rewrite normalizePath_lead.
  destruct (lead_slash_shape p) as [r Hr]. rewrite Hr.
  split; [apply norm_q_shape|].
  destruct (jstr_eqb (SLASH :: r) INDEX_HTML) eqn:EI.
  { unfold norm_q. rewrite EI. split; [left; reflexivity|discriminate]. }
  destruct ((1 <? Z.of_nat (List.length (SLASH :: r))) && endsWithChar (SLASH :: r) SLASH) eqn:EC.
  - destruct (exists_last (l := SLASH :: r) ltac:(discriminate)) as [q0 [a Ha]].
    rewrite Ha in EI, EC |- *. rewrite (norm_q_strip _ _ EI EC).
    pose proof EC as EC'. apply andb_true_iff in EC' as [Hlen Ha'].
    rewrite endsWithChar_snoc in Ha'. apply Z.eqb_eq in Ha'. subst a.
    apply Z.ltb_lt in Hlen. rewrite length_app in Hlen. cbn [List.length] in Hlen.
    split.
    + intro E. right.
      destruct (exists_last (l := q0) ltac:(intro; subst; cbn in Hlen; lia)) as [q1 [b Hb]].
      rewrite Hb in E |- *. rewrite endsWithChar_snoc in E.
      rewrite <- app_assoc, ends2slash_snoc2, E. reflexivity.
    + intros ->. reflexivity.
  - rewrite (norm_q_keep _ EI EC). split.
    + intro E. left. destruct r as [|x r]; [reflexivity|].
      cbn [List.length] in EC. rewrite E, andb_true_r in EC. apply Z.ltb_ge in EC. lia.
    + intro E. rewrite E in EI. discriminate EI.
Qed.

(** ** Unboot of the mounted view *)

Lemma nav_begin_unboot : forall cfg w u pathname search rep rs bc w' p,
  unboot (current w) = Some u ->
  nav_begin cfg w pathname search rep rs UReturns bc = OWait w' p ->
  current w' = current w /\ unbootCalls w' = u :: unbootCalls w.
Proof.
  intros cfg w u pathname search rep rs bc w' p Hu E. unfold nav_begin in E.
  destruct (negb (rootPresent w)); [discriminate E|].
  destruct (resolve cfg _) as [[res|]|e]; [|discriminate E..].
  cbv zeta in E. destruct (_ && _); [discriminate E|].
  revert E. match goal with |- context [match unboot (current ?x) with _ => _ end] => set (w3 := x) end.
  assert (F : current w3 = current w /\ unbootCalls w3 = unbootCalls w).
  { subst w3. unfold store_write. crush_matches; split; reflexivity. }
  destruct F as [F1 F2]. clearbody w3. rewrite F1, Hu. intro E. injection E as <- _.
  cbn [current unbootCalls set_unbootCalls]. rewrite F1, F2. split; reflexivity.
Qed.

Lemma stop_unboot : forall w u, unboot (current w) = Some u ->
  unbootCalls (stop w) = u :: unbootCalls w /\ current (stop w) = current w.
Proof.
  intros w u Hu. unfold stop. cbn [current set_goSubscribed set_listening]. rewrite Hu.
  split; reflexivity.
Qed.

Lemma after_boot_uc : forall cfg w fr r,
  unbootCalls (out_world (after_boot cfg w fr r)) = unbootCalls w /\
  nextCtl (out_world (after_boot cfg w fr r)) = nextCtl w.
Proof.
  intros cfg w fr r. unfold after_boot. destruct r as [ub|]; [|split; reflexivity].
  destruct (aborted_b w (f_sig fr)); [split; reflexivity|]. cbv zeta. unfold store_write.
  crush_matches; split; reflexivity.
Qed.

Lemma after_unboot_uc : forall cfg w fr bb,
  unbootCalls (out_world (after_unboot cfg w fr bb)) = unbootCalls w /\
  nextCtl (out_world (after_unboot cfg w fr bb)) = nextCtl w.
Proof.
  intros cfg w fr bb. unfold after_unboot. destruct (f_boot fr) as [b|].
  - destruct bb; split; reflexivity.
  - exact (after_boot_uc cfg (set_rootClears (S (rootClears w)) w) fr (BResolved None)).
Qed.

(** X13: every navigation that gets past its guards (it creates a new
    abort controller) calls the mounted view's unboot exactly once, whether
    unboot returns or throws; one that waits on that unboot leaves
    NavigationState holding the old view, so a second navigation started
    before the commit calls the same unboot again; stop() calls it too and
    also leaves NavigationState as it is. *)
Theorem X13_unboot_called_per_navigation :
  (forall cfg w u pathname search rep rs uc bc,
     unboot (current w) = Some u ->
     let o := nav_begin cfg w pathname search rep rs uc bc in
     (o = ODone w \/ o = OFail w) \/
     (nextCtl (out_world o) = S (nextCtl w) /\ unbootCalls (out_world o) = u :: unbootCalls w)) /\
  (forall cfg w u pathname search rep rs bc w' p,
     unboot (current w) = Some u ->
     nav_begin cfg w pathname search rep rs UReturns bc = OWait w' p ->
     current w' = current w) /\
  (forall w u, unboot (current w) = Some u ->
     unbootCalls (stop w) = u :: unbootCalls w /\ current (stop w) = current w).
Proof.
  split; [|split].
  - intros cfg w u pathname search rep rs uc bc Hu o. subst o. unfold nav_begin.
    destruct (negb (rootPresent w)); [left; right; reflexivity|].
    destruct (resolve cfg _) as [[res|]|e]; [|left; left; reflexivity|left; right; reflexivity].
    cbv zeta. destruct (_ && _); [left; left; reflexivity|]. right.
    match goal with |- context [match unboot (current ?x) with _ => _ end] => set (w3 := x) end.
    assert (F : current w3 = current w /\ unbootCalls w3 = unbootCalls w /\ nextCtl w3 = S (nextCtl w)).
    { subst w3. unfold store_write. crush_matches; repeat split. }
    destruct F as [F1 [F2 F3]]. clearbody w3. rewrite F1, Hu.
    destruct uc.
    + destruct (after_unboot_uc cfg (set_unbootCalls (u :: unbootCalls w3) w3)
        {| f_sig := nextCtl w; f_appPath := normalizePath (Some (stripBase (basePath cfg) pathname));
           f_search := mkSearch search; f_view := res_view res; f_boot := res_boot res;
           f_params := res_params res; f_replace := rep; f_restore := rs |} bc) as [G1 G2].
      rewrite G1, G2. cbn [unbootCalls nextCtl set_unbootCalls]. rewrite F2, F3. split; reflexivity.
    + cbn [out_world unbootCalls nextCtl set_unbootCalls]. rewrite F2, F3. split; reflexivity.
  - intros cfg w u pathname search rep rs bc w' p Hu E.
    exact (proj1 (nav_begin_unboot cfg w u pathname search rep rs bc w' p Hu E)).
  - exact stop_unboot.
Qed.

Lemma X13_unboot_called_per_navigation_witness :
  unbootCalls (out_world (nav_begin demo_cfg unboot_w0 (js "/users") [] false false UThrowsSync BReturns))
    = [7%nat] /\
  unbootCalls (stop unboot_w0) = [7%nat].
Proof.
  split.
  - destruct (proj1 X13_unboot_called_per_navigation demo_cfg unboot_w0 7%nat (js "/users") [] false false
      UThrowsSync BReturns eq_refl) as [[E|E]|[_ E]].
    + exfalso. revert E. vm_compute. discriminate.
    + exfalso. revert E. vm_compute. discriminate.
    + rewrite E. reflexivity.
  - rewrite (proj1 (proj2 (proj2 X13_unboot_called_per_navigation) unboot_w0 7%nat eq_refl)). reflexivity.
Defined.

(** ** ui.route.go: the path and search it navigates with *)

Lemma nav_begin_target : forall cfg w pathname search rep rs uc bc,
  let o := nav_begin cfg w pathname search rep rs uc bc in
  (csearch (current (out_world o)) = csearch (current w) \/
   csearch (current (out_world o)) = mkSearch search) /\
  (forall w' p, o = OWait w' p ->
     f_search (frame_of p) = mkSearch search /\
     f_appPath (frame_of p) = normalizePath (Some (stripBase (basePath cfg) pathname))).
Proof.
  intros cfg w pathname search rep rs uc bc o.
  destruct (nav_begin_search cfg w pathname search rep rs uc bc) as [S1 S2].
  split; [exact S1|]. intros w' p E. split; [exact (S2 w' p E)|].
  destruct (nav_begin_shape cfg w pathname search rep rs uc bc)
    as [[D|D]|[fr [res [_ [Hp [_ [_ [_ [_ [_ Hf]]]]]]]]]].
  - subst o. rewrite D in E. discriminate E.
  - subst o. rewrite D in E. discriminate E.
  - rewrite (Hf w' p E). exact Hp.
Qed.

(** X14: writing a path string to ui.route.go, or an object that has a
    path or no query patch, navigates with the object's search (or none)
    instead of keeping the current query: a string navigates with an empty
    search, an object with [search || '']; the path is the string, the
    object's path, or '/' when the object has none.  After the write
    NavigationState's search is unchanged or that search (with '?' added
    when missing), and a navigation the write leaves suspended carries that
    search and that path, normalized and base-stripped. *)
Theorem X14_go_search_replaces_query : forall cfg w uc bc,
  goSubscribed w = true ->
  (forall s, s <> [] ->
     let o := store_set_go cfg w (GoString s) uc bc in
     (csearch (current (out_world o)) = csearch (current w) \/ csearch (current (out_world o)) = []) /\
     (forall w' p, o = OWait w' p ->
        f_search (frame_of p) = [] /\
        f_appPath (frame_of p) = normalizePath (Some (stripBase (basePath cfg) s)))) /\
  (forall path search q rep, truthy_str path = true \/ q = None ->
     let sr := mkSearch (match search with Some s => s | None => [] end) in
     let o := store_set_go cfg w (GoObject path search q rep) uc bc in
     (csearch (current (out_world o)) = csearch (current w) \/ csearch (current (out_world o)) = sr) /\
     (forall w' p, o = OWait w' p ->
        f_search (frame_of p) = sr /\
        f_appPath (frame_of p) = normalizePath (Some (stripBase (basePath cfg)
                                   (match path with Some ((_ :: _) as s) => s | _ => [SLASH] end))))).
Proof.
  intros cfg w uc bc Hg. split.
  - intros [|c s] Hs; [contradiction Hs; reflexivity|]. cbv zeta.
    unfold store_set_go, go_dispatch. rewrite Hg.
    exact (nav_begin_target cfg w (c :: s) [] false false uc bc).
  - intros path search q rep Hc. cbv zeta. unfold store_set_go, go_dispatch. rewrite Hg.
    destruct (truthy_str path), q as [q|]; [| | destruct Hc as [Hc|Hc]; discriminate Hc |];
      exact (nav_begin_target cfg w _ _ _ false uc bc).
Qed.

Lemma X14_go_search_replaces_query_witness :
  csearch (current (out_world (store_set_go demo_cfg search_w2 (GoString (js "/users")) UReturns BReturns)))
    = [] /\
  csearch (current (out_world (store_set_go demo_cfg search_w2
    (GoObject (Some (js "/users")) (Some (js "tab=all")) None None) UReturns BReturns))) = js "?tab=all".
Proof.
  destruct (X14_go_search_replaces_query demo_cfg search_w2 UReturns BReturns ltac:(vm_compute; reflexivity))
    as [G1 G2]. split.
  - destruct (G1 (js "/users") ltac:(discriminate)) as [[E|E] _].
    + exfalso. revert E. vm_compute. discriminate.
    + exact E.
  - destruct (G2 (Some (js "/users")) (Some (js "tab=all")) None None (or_intror eq_refl)) as [[E|E] _].
    + exfalso. revert E. vm_compute. discriminate.
    + rewrite E. vm_compute. reflexivity.
Defined.
